(** * The typesafe IPC layer of the desktop client, and its server manager

    A shallow embedding of
    - [createMainHandler], [registerMainHandlers] and [getRendererCaller]
      of [src/shared/lib/ipc/main.ts], which run in the main process;
    - [createMainCaller] and [createRendererHandler] of the renderer half
      of the same library, with the wiring [ipcMainCaller] and
      [ipcRendererHandler] the application gives them;
    - [NeovateServerManager], the get-or-create manager of the backend
      server.

    JavaScript objects used as tables are association lists in the order
    [Object.entries] walks them, the registries of the IPC substrate are
    finite maps, and promises are cells of a promise store.  Code that
    mutates state is written in a state monad whose completions are
    normal, abrupt (an exception) or suspended (an [await] that never
    resumes).  What Electron and Node do (one handler per channel in
    [ipcMain.handle], listeners run in order by [emit], [async] functions
    catching what their body throws) is written out next to the code that
    relies on it.

    The model follows one turn of the event loop at a time and records
    the effects a turn eventually has; user procedures and callbacks are
    functions from their arguments to an [Outcome] and do not call back
    into the IPC layer. *)

From Stdlib Require Import ZArith.
From stdpp Require Import base strings pretty list gmap.

Local Open Scope string_scope.
Local Open Scope list_scope.

(** ** Plain JavaScript values *)

Module Js.

(** Payloads are plain structured data.  Numbers are the integers the
    callers pass around; [NaN] is not represented. *)
#[warnings="-register-all"]
Inductive JsVal : Type :=
  | VUndefined
  | VNull
  | VBool (b : bool)
  | VNum (n : Z)
  | VStr (s : string)
  | VObj (fields : list (string * JsVal)).

(** [ToBoolean]: what [if (v)] tests. *)
Definition truthy (v : JsVal) : bool :=
  match v with
  | VUndefined | VNull => false
  | VBool b => b
  | VNum n => negb (Z.eqb n 0)
  | VStr s => negb (String.eqb s "")
  | VObj _ => true
  end.

(** Property read [o.k] on a plain object; a missing key reads
    [undefined]. *)
Fixpoint get_field (k : string) (fields : list (string * JsVal)) : JsVal :=
  match fields with
  | [] => VUndefined
  | (k', v) :: rest => if String.eqb k k' then v else get_field k rest
  end.

(** What a call of a user-supplied function comes to.  A function may
    return a plain value or throw, or hand back a promise that later
    fulfils, rejects, or stays pending for ever. *)
Inductive Outcome : Type :=
  | Returns (v : JsVal)
  | Throws (e : JsVal)
  | Resolves (v : JsVal)
  | Rejects (e : JsVal)
  | NeverSettles.

(** The state of a promise. *)
Inductive PromiseState : Type :=
  | Pending
  | Fulfilled (v : JsVal)
  | Rejected (e : JsVal).

End Js.
Export Js.

(** ** Channel addressing, as the wire table of the specification has it *)

(** [<namespace>.<method>]: renderer to main, request/response. *)
Definition address (namespace method : string) : string :=
  namespace +:+ "." +:+ method.

(** [send:<namespace>.<method>]: main to renderer, fire-and-forget. *)
Definition sendAddress (namespace method : string) : string :=
  "send:" +:+ address namespace method.

(** [invoke:<namespace>.<method>]: main to renderer, request init. *)
Definition invokeAddress (namespace method : string) : string :=
  "invoke:" +:+ address namespace method.

(** ** Completions and the state monad of one process *)

(** How a piece of code completes: normally, by an exception, or never
    (it is parked on an [await] whose promise stays pending). *)
Inductive Completion (A : Type) : Type :=
  | Normal (a : A)
  | Abrupt (e : JsVal)
  | Suspended.
Arguments Normal {A} a.
Arguments Abrupt {A} e.
Arguments Suspended {A}.

Definition M (S A : Type) : Type := S → Completion A * S.

Definition ret {S A} (a : A) : M S A := λ st, (Normal a, st).

Definition bind {S A B} (m : M S A) (k : A → M S B) : M S B :=
  λ st,
    match m st with
    | (Normal a, st') => k a st'
    | (Abrupt e, st') => (Abrupt e, st')
    | (Suspended, st') => (Suspended, st')
    end.

Definition throw {S A} (e : JsVal) : M S A := λ st, (Abrupt e, st).

Definition suspend {S A} : M S A := λ st, (Suspended, st).

(** [try { body } catch (error) { handler(error) }] *)
Definition tryCatch {S A} (body : M S A) (handler : JsVal → M S A) : M S A :=
  λ st,
    match body st with
    | (Abrupt e, st') => handler e st'
    | other => other
    end.

Definition gets {S A} (f : S → A) : M S A := λ st, (Normal (f st), st).

Definition modify {S} (f : S → S) : M S unit := λ st, (Normal tt, f st).

#[global] Instance M_ret {S} : MRet (M S) := λ A, @ret S A.
#[global] Instance M_bind {S} : MBind (M S) := λ A B k m, @bind S A B m k.

(** [for (const x of xs) body(x)] *)
Fixpoint forEach {S A} (xs : list A) (body : A → M S unit) : M S unit :=
  match xs with
  | [] => ret tt
  | x :: rest => bind (body x) (λ _, forEach rest body)
  end.

(** [await e], where [e] completed as [o]. *)
Definition await {S} (o : Outcome) : M S JsVal :=
  match o with
  | Returns v | Resolves v => ret v
  | Throws e | Rejects e => throw e
  | NeverSettles => suspend
  end.

(** [new Error(message)], as the plain data that crosses the wire. *)
Definition mkError (name message : string) : JsVal :=
  VObj [("name", VStr name); ("message", VStr message)].

(** State reached by a computation, whatever its completion. *)
Definition exec {S A} (m : M S A) (st : S) : S := (m st).2.

(** ** The main process *)

Module Main.

(** [Electron.WebContents]: one renderer, as seen from the main process. *)
Record WebContents : Type := { wcId : nat }.

(** The event [ipcMain] passes to a listener; the code reads [e.sender]. *)
Record IpcMainEvent : Type := { evSender : WebContents }.

(** [MainHandlerContext] and the argument of a [MainHandler]. *)
Record MainHandlerContext : Type := { sender : WebContents }.
Record HandlerArgs : Type := { context : MainHandlerContext; input : JsVal }.

Definition MainHandler : Type := HandlerArgs → Outcome.

(** The object [{ handler: fn }]. *)
Record MainHandlerEntry : Type := { handler : MainHandler }.

(** [createMainHandler = (fn) => ({ handler: fn })] *)
Definition createMainHandler (fn : MainHandler) : MainHandlerEntry :=
  {| handler := fn |}.

(** [MainHandlers = Record<string, Record<string, { handler }>>], in the
    order [Object.entries] walks it. *)
Definition MainHandlers : Type :=
  list (string * list (string * MainHandlerEntry)).

(** The state of the main process that the IPC layer reads and writes.
    - [invokeHandlers]: the registry behind [ipcMain.handle]; the listener
      that [registerMainHandlers] installs captures [handler] alone, and
      the registry keeps that captured procedure (its body is
      [handleListener] below);
    - [onceListeners]: the one-shot listeners of [ipcMain.once], each
      given by the promise whose [resolve]/[reject] it captures;
    - [promises]: the promise store, a promise being its index;
    - [uuidCount]: how many values [crypto.randomUUID] has yielded;
    - [sent]: the messages written with [contents.send], oldest first;
    - [calls]: the procedures invoked so far, with their argument. *)
Record MainState : Type := {
  invokeHandlers : gmap string MainHandler;
  onceListeners : gmap string (list nat);
  promises : list PromiseState;
  uuidCount : nat;
  sent : list (WebContents * string * list JsVal);
  calls : list (MainHandler * HandlerArgs)
}.

Definition initial : MainState :=
  {| invokeHandlers := ∅; onceListeners := ∅; promises := [];
     uuidCount := 0; sent := []; calls := [] |}.

Definition setInvokeHandlers (f : gmap string MainHandler → gmap string MainHandler)
    (st : MainState) : MainState :=
  {| invokeHandlers := f (invokeHandlers st); onceListeners := onceListeners st;
     promises := promises st; uuidCount := uuidCount st; sent := sent st;
     calls := calls st |}.

Definition setOnceListeners (f : gmap string (list nat) → gmap string (list nat))
    (st : MainState) : MainState :=
  {| invokeHandlers := invokeHandlers st; onceListeners := f (onceListeners st);
     promises := promises st; uuidCount := uuidCount st; sent := sent st;
     calls := calls st |}.

Definition setPromises (f : list PromiseState → list PromiseState)
    (st : MainState) : MainState :=
  {| invokeHandlers := invokeHandlers st; onceListeners := onceListeners st;
     promises := f (promises st); uuidCount := uuidCount st; sent := sent st;
     calls := calls st |}.

Definition setUuidCount (n : nat) (st : MainState) : MainState :=
  {| invokeHandlers := invokeHandlers st; onceListeners := onceListeners st;
     promises := promises st; uuidCount := n; sent := sent st;
     calls := calls st |}.

Definition setSent (l : list (WebContents * string * list JsVal))
    (st : MainState) : MainState :=
  {| invokeHandlers := invokeHandlers st; onceListeners := onceListeners st;
     promises := promises st; uuidCount := uuidCount st; sent := l;
     calls := calls st |}.

Definition setCalls (l : list (MainHandler * HandlerArgs))
    (st : MainState) : MainState :=
  {| invokeHandlers := invokeHandlers st; onceListeners := onceListeners st;
     promises := promises st; uuidCount := uuidCount st; sent := sent st;
     calls := l |}.

(** The one-shot listeners bound to a channel, in registration order. *)
Definition listenersOn (st : MainState) (channel : string) : list nat :=
  default [] (onceListeners st !! channel).

(** Calling a procedure: the call is recorded and completes as the
    procedure says. *)
Definition call (fn : MainHandler) (args : HandlerArgs) : M MainState Outcome :=
  λ st, (Normal (fn args), setCalls (calls st ++ [(fn, args)]) st).

(** *** The substrate: Electron's [ipcMain], [webContents.send] and
    [crypto.randomUUID] *)

(** [ipcMain.handle(channel, listener)]: one handler per channel, a second
    registration on a channel throws. *)
Definition ipcMain_handle (channel : string) (captured : MainHandler)
    : M MainState unit :=
  λ st,
    match invokeHandlers st !! channel with
    | Some _ =>
        (Abrupt (mkError "Error"
           ("Attempted to register a second handler for '" +:+ channel +:+ "'")),
         st)
    | None => (Normal tt, setInvokeHandlers (<[channel := captured]>) st)
    end.

(** [ipcMain.once(channel, listener)] *)
Definition ipcMain_once (channel : string) (promise : nat) : M MainState unit :=
  modify (λ st,
    setOnceListeners (<[channel := (listenersOn st channel ++ [promise])]>) st).

(** [contents.send(channel, ...args)] on a renderer that is alive: queues
    the message, returns [undefined]. *)
Definition contents_send (contents : WebContents) (channel : string)
    (args : list JsVal) : M MainState JsVal :=
  λ st, (Normal VUndefined, setSent (sent st ++ [(contents, channel, args)]) st).

(** The [WebContents] object that [getRendererCaller] is given, as it is
    when a method is called on it: the renderer it stands for, and whether
    it has been destroyed ([isDestroyed()]). *)
Record WebContentsObject : Type := {
  target : WebContents;
  destroyed : bool
}.

Definition live (contents : WebContents) : WebContentsObject :=
  {| target := contents; destroyed := false |}.

(** Electron's [webContents.send(channel, ...args)]: on a destroyed object
    it throws, otherwise it queues the message.  (It also throws on an
    argument that cannot be cloned; the payloads here are plain data.) *)
Definition webContents_send (contents : WebContentsObject) (channel : string)
    (args : list JsVal) : M MainState JsVal :=
  if destroyed contents
  then throw (mkError "TypeError" "Object has been destroyed")
  else contents_send (target contents) channel args.

(** [new Promise(executor)]: a fresh pending promise. *)
Definition newPromise : M MainState nat :=
  λ st, (Normal (length (promises st)), setPromises (λ ps, ps ++ [Pending]) st).

(** [resolve]/[reject] of a promise: only a pending promise changes. *)
Definition settle (promise : nat) (s : PromiseState) : M MainState unit :=
  modify (λ st,
    match promises st !! promise with
    | Some Pending => setPromises (<[promise := s]>) st
    | _ => st
    end).

Section WithGenerator.

(** The values [crypto.randomUUID()] yields, in the order it yields them. *)
Variable randomUUID : nat → string.

Definition crypto_randomUUID : M MainState string :=
  λ st, (Normal (randomUUID (uuidCount st)), setUuidCount (S (uuidCount st)) st).

(** *** [registerMainHandlers] *)

(** The listener [(e, payload) => handler({ context: { sender: e.sender },
    input: payload })]. *)
Definition handleListener (handler : MainHandler) (e : IpcMainEvent)
    (payload : JsVal) : M MainState Outcome :=
  call handler {| context := {| sender := evSender e |}; input := payload |}.

Definition registerMainHandlers (mainHandlers : MainHandlers) : M MainState unit :=
  forEach mainHandlers (λ '(namespace, methods),
    forEach methods (λ '(method, entry),
      let channelName := namespace +:+ "." +:+ method in
      ipcMain_handle channelName (handler entry))).

(** An inbound request on [channel] (the renderer called
    [ipcRenderer.invoke(channel, payload)]): [ipcMain] runs the listener
    bound to the channel and answers with what it returns. *)
Definition dispatch (channel : string) (e : IpcMainEvent) (payload : JsVal)
    : M MainState Outcome :=
  λ st,
    match invokeHandlers st !! channel with
    | Some captured => handleListener captured e payload st
    | None =>
        (Normal (Rejects (mkError "Error"
           ("No handler registered for '" +:+ channel +:+ "'"))), st)
    end.

(** *** [getRendererCaller] *)

(** The object the inner proxy returns for [caller.namespace.method].
    [invoke] is [async] and returns the promise it builds: the promise its
    caller holds follows that one, and the two are not told apart. *)
Record RendererCaller : Type := {
  send : list JsVal → M MainState JsVal;
  invoke : list JsVal → M MainState nat
}.

Definition getRendererCaller (contents : WebContents)
    (namespace method : string) : RendererCaller :=
  let channelName := namespace +:+ "." +:+ method in
  {| send := λ args, contents_send contents ("send:" +:+ channelName) args;
     invoke := λ args,
       id ← crypto_randomUUID;
       promise ← newPromise;
       _ ← ipcMain_once id promise;
       _ ← contents_send contents ("invoke:" +:+ channelName) (VStr id :: args);
       mret promise |}.

(** [getRendererCaller(contents)] for a [WebContents] object in any state;
    [getRendererCaller] above is the case of a renderer that is alive.
    Neither function guards the call of [contents.send]: what it throws
    leaves [send], and in [invoke], where the call sits in the executor of
    [new Promise], rejects the promise. *)
Definition rendererCallerOf (contents : WebContentsObject)
    (namespace method : string) : RendererCaller :=
  let channelName := namespace +:+ "." +:+ method in
  {| send := λ args, webContents_send contents ("send:" +:+ channelName) args;
     invoke := λ args,
       id ← crypto_randomUUID;
       promise ← newPromise;
       _ ← ipcMain_once id promise;
       _ ← tryCatch
             (webContents_send contents ("invoke:" +:+ channelName) (VStr id :: args))
             (λ error, _ ← settle promise (Rejected error); mret VUndefined);
       mret promise |}.

(** The one-shot listener [(_, { error, result }) => { if (error)
    reject(error) else resolve(result) }].  Destructuring [undefined] or
    [null] throws; any other primitive has neither property. *)
Definition onceListener (promise : nat) (args : list JsVal) : M MainState unit :=
  match nth 0 args VUndefined with
  | VUndefined | VNull =>
      throw (mkError "TypeError" "Cannot destructure property 'error'")
  | envelope =>
      let fields := match envelope with VObj fs => fs | _ => [] end in
      let error := get_field "error" fields in
      let result := get_field "result" fields in
      if truthy error then settle promise (Rejected error)
      else settle promise (Fulfilled result)
  end.

(** A message on [channel] arrives from a renderer (it called
    [ipcRenderer.send(channel, ...args)]): [ipcMain] emits it to the
    listeners bound to the channel.  A one-shot listener is unbound
    before it runs; an exception leaves the emit. *)
Fixpoint emitOnce (channel : string) (listeners : list nat) (args : list JsVal)
    : M MainState unit :=
  match listeners with
  | [] => ret tt
  | promise :: rest =>
      _ ← modify (setOnceListeners (<[channel := rest]>));
      _ ← onceListener promise args;
      emitOnce channel rest args
  end.

Definition ipcMain_emit (channel : string) (args : list JsVal) : M MainState unit :=
  λ st, emitOnce channel (listenersOn st channel) args st.

(** *** Runs of the main process *)

Inductive Event : Type :=
  | Register (mainHandlers : MainHandlers)
  | Send (contents : WebContents) (namespace method : string) (args : list JsVal)
  | Invoke (contents : WebContents) (namespace method : string) (args : list JsVal)
  | Request (channel : string) (e : IpcMainEvent) (payload : JsVal)
  | Message (channel : string) (args : list JsVal).

Definition step (st : MainState) (ev : Event) : MainState :=
  match ev with
  | Register mainHandlers => exec (registerMainHandlers mainHandlers) st
  | Send contents namespace method args =>
      exec (send (getRendererCaller contents namespace method) args) st
  | Invoke contents namespace method args =>
      exec (invoke (getRendererCaller contents namespace method) args) st
  | Request channel e payload => exec (dispatch channel e payload) st
  | Message channel args => exec (ipcMain_emit channel args) st
  end.

Definition run (evs : list Event) (st : MainState) : MainState :=
  foldl step st evs.

End WithGenerator.

(** *** Notions used to reason about the main process *)

(** What the one-shot listener of [invoke] makes of an envelope with
    these fields. *)
Definition settlement (fields : list (string * JsVal)) : PromiseState :=
  if truthy (get_field "error" fields)
  then Rejected (get_field "error" fields)
  else Fulfilled (get_field "result" fields).




(** Two states that differ in the registry of [ipcMain.handle] at most,
    the later one keeping every binding of the earlier one. *)
Definition registryGrows (st st' : MainState) : Prop :=
  invokeHandlers st ⊆ invokeHandlers st' ∧
  st' = setInvokeHandlers (λ _, invokeHandlers st') st.

(** The inner loop of [registerMainHandlers]. *)
Definition registerMethods (namespace : string)
    (methods : list (string * MainHandlerEntry)) : M MainState unit :=
  forEach methods (λ '(method, entry),
    ipcMain_handle (namespace +:+ "." +:+ method) (handler entry)).

(** Every waiter holds a promise of the store and sits on a channel the
    generator yielded. *)
Definition WellFormed (randomUUID : nat → string) (st : MainState) : Prop :=
  ∀ channel q, q ∈ listenersOn st channel →
    q < length (promises st) ∧ ∃ k, k < uuidCount st ∧ channel = randomUUID k.

(** A call is waiting: its waiter is the only listener on its token, its
    promise is pending, and no other channel reaches that promise. *)
Definition Waiting (randomUUID : nat → string) (st : MainState)
    (token : string) (promise : nat) : Prop :=
  listenersOn st token = [promise] ∧
  promises st !! promise = Some Pending ∧
  (∀ channel, channel ≠ token → promise ∉ listenersOn st channel) ∧
  (∃ k, k < uuidCount st ∧ token = randomUUID k).

End Main.

(** ** The renderer process *)

Module Renderer.

(** The event [ipcRenderer] passes to a listener; the code drops it. *)
Record IpcRendererEvent : Type := { evSenderId : nat }.

(** [RendererHandler = (...args) => TOutput | Promise<TOutput>] *)
Definition RendererHandler : Type := list JsVal → Outcome.

(** What the bodies of listeners read and write:
    - [sent]: the messages written with [ipcRenderer.send], oldest first;
    - [requests]: the requests issued with [ipcRenderer.invoke];
    - [calls]: the callbacks invoked so far, with their arguments. *)
Record Wire : Type := {
  sent : list (string * list JsVal);
  requests : list (string * list JsVal);
  calls : list (RendererHandler * list JsVal)
}.

(** A listener [(event, ...args) => ...]. *)
Definition Listener : Type := IpcRendererEvent → list JsVal → M Wire unit.

(** The renderer: the wire and the listeners bound with [ipcRenderer.on],
    each under the number that its cleanup function removes. *)
Record RendererState : Type := {
  wire : Wire;
  listeners : list (nat * (string * Listener));
  nextRegistration : nat
}.

Definition initialWire : Wire := {| sent := []; requests := []; calls := [] |}.

Definition initial : RendererState :=
  {| wire := initialWire; listeners := []; nextRegistration := 0 |}.

(** Calling a callback: the call is recorded and completes as the
    callback says. *)
Definition call (fn : RendererHandler) (args : list JsVal) : M Wire Outcome :=
  λ w, (Normal (fn args),
        {| sent := sent w; requests := requests w;
           calls := calls w ++ [(fn, args)] |}).

(** An [async] function hands back a promise at once: neither an
    exception nor a pending [await] in its body reaches the caller.  The
    effects its body eventually has are kept; when, relative to other
    code, the part of the body after an [await] runs is not represented,
    so the order of the messages of different [async] bodies is not
    meaningful. *)
Definition async (body : M Wire unit) : M Wire unit :=
  λ w, (Normal tt, exec body w).

(** *** The substrate: [ipcRenderer] behind the preload bridge *)

(** [ipcRenderer.send(channel, ...args)]: the channel has to be a string. *)
Definition ipcRenderer_send (channel : JsVal) (args : list JsVal) : M Wire unit :=
  match channel with
  | VStr name =>
      λ w, (Normal tt,
            {| sent := sent w ++ [(name, args)]; requests := requests w;
               calls := calls w |})
  | _ => throw (mkError "TypeError" "Error processing argument at index 1")
  end.

(** [ipcRenderer.invoke(channel, ...args)]: issues the request and hands
    back its future, the index of the request. *)
Definition ipcRenderer_invoke (channel : string) (args : list JsVal) : M Wire nat :=
  λ w, (Normal (length (requests w)),
        {| sent := sent w; requests := requests w ++ [(channel, args)];
           calls := calls w |}).

(** [on(channel, listener)]: binds the listener and returns the cleanup
    function, given by the number of the registration. *)
Definition ipcRenderer_on (channel : string) (listener : Listener)
    : M RendererState nat :=
  λ st, (Normal (nextRegistration st),
         {| wire := wire st;
            listeners := listeners st ++ [(nextRegistration st, (channel, listener))];
            nextRegistration := S (nextRegistration st) |}).

(** Calling the cleanup function unbinds that registration. *)
Definition cleanup (registration : nat) : M RendererState unit :=
  modify (λ st,
    {| wire := wire st;
       listeners := filter (λ r, r.1 ≠ registration) (listeners st);
       nextRegistration := nextRegistration st |}).

(** The listeners bound to a channel, in registration order. *)
Definition listenersOn (st : RendererState) (channel : string) : list Listener :=
  (λ r, r.2.2) <$> filter (λ r, r.2.1 = channel) (listeners st).

(** A message from the main process arrives on [channel]: the listeners
    bound to it run in order; an exception leaves the emit. *)
Definition ipcRenderer_emit (channel : string) (e : IpcRendererEvent)
    (args : list JsVal) : M RendererState unit :=
  λ st,
    let '(c, w) := forEach (listenersOn st channel) (λ l, l e args) (wire st) in
    (c, {| wire := w; listeners := listeners st;
           nextRegistration := nextRegistration st |}).

(** *** [createMainCaller] *)

(** [caller.namespace.method], the function
    [(input) => ipcInvoke(channelName, input)]. *)
Definition createMainCaller {R : Type} (ipcInvoke : string → list JsVal → R)
    (namespace method : string) : JsVal → R :=
  let channelName := namespace +:+ "." +:+ method in
  λ input, ipcInvoke channelName [input].

(** *** [createRendererHandler] *)

(** The object the inner proxy returns for [handler.namespace.method]. *)
Record RendererHandlerListener : Type := {
  listen : RendererHandler → M RendererState nat;
  handle : RendererHandler → M RendererState nat
}.

(** The listener [(_, ...args) => handler(...args)]. *)
Definition listenListener (handler : RendererHandler) : Listener :=
  λ _ args,
    o ← call handler args;
    match o with
    | Throws e => throw e
    | _ => mret tt
    end.

(** The listener
    [async (__, id, ...args) => { try { const result = await
    handler(...args); send(id, { result }); } catch (error) { send(id,
    { error }); } }]. *)
Definition handleListener (send : JsVal → list JsVal → M Wire unit)
    (handler : RendererHandler) : Listener :=
  λ _ idArgs,
    let id := nth 0 idArgs VUndefined in
    let args := tail idArgs in
    async (tryCatch
      (o ← call handler args;
       result ← await o;
       send id [VObj [("result", result)]])
      (λ error, send id [VObj [("error", error)]])).

Definition createRendererHandler
    (on : string → Listener → M RendererState nat)
    (send : JsVal → list JsVal → M Wire unit)
    (namespace method : string) : RendererHandlerListener :=
  let channelName := namespace +:+ "." +:+ method in
  {| listen := λ handler, on ("send:" +:+ channelName) (listenListener handler);
     handle := λ handler,
       on ("invoke:" +:+ channelName) (handleListener send handler) |}.

(** The wiring of the application: [createRendererHandler] gets
    [ipcRenderer.on] and [ipcRenderer.send], [createMainCaller] gets
    [ipcRenderer.invoke]. *)
Definition ipcRendererHandler : string → string → RendererHandlerListener :=
  createRendererHandler ipcRenderer_on ipcRenderer_send.

Definition ipcMainCaller : string → string → JsVal → M Wire nat :=
  createMainCaller ipcRenderer_invoke.

End Renderer.

(** ** The backend-server manager ([NeovateServerManager]) *)

Module Server.

(** [ServerInstance]: the manager and its caller read [url] and call
    [close]. *)
Record ServerInstance : Type := { url : string }.

(** The state of a promise of a [ServerInstance]. *)
Inductive Creation : Type :=
  | InFlight
  | Created (instance : ServerInstance)
  | Failed (error : JsVal).

(** The manager and what surrounds it.
    - [instance], [creationPromise]: the two private fields;
    - [creations]: one cell per call of [createNeovateServer()], the
      state of the promise [createNeovateServer().then(..).catch(..)]
      built from it; a promise is the index of its cell;
    - [closed]: the instances [close()] was called on. *)
Record Manager : Type := {
  instance : option ServerInstance;
  creationPromise : option nat;
  creations : list Creation;
  closed : list ServerInstance
}.

Definition initial : Manager :=
  {| instance := None; creationPromise := None; creations := []; closed := [] |}.

(** What [getOrCreate] returns: the cached instance or a promise.  The
    function is [async]; the promise it hands to its caller is resolved
    with this value and so follows it. *)
Inductive Returned : Type :=
  | Instance (instance : ServerInstance)
  | Promise (promise : nat).

(** [getOrCreate()].  [createNeovateServer()] belongs to another module
    and is a parameter here: it hands back a promise that is pending
    during the call and that its environment settles later ([settled]
    below). *)
Definition getOrCreate (m : Manager) : Returned * Manager :=
  match instance m with
  | Some existing => (Instance existing, m)
  | None =>
      match creationPromise m with
      | Some inProgress => (Promise inProgress, m)
      | None =>
          let promise := length (creations m) in
          (Promise promise,
           {| instance := instance m;
              creationPromise := Some promise;
              creations := creations m ++ [InFlight];
              closed := closed m |})
      end
  end.

(** The promise of [createNeovateServer()] behind [promise] settles: the
    [.then] callback stores the instance and clears [creationPromise]; the
    [.catch] callback clears [creationPromise] and rethrows. *)
Definition settled (promise : nat) (outcome : ServerInstance + JsVal)
    (m : Manager) : Manager :=
  match creations m !! promise with
  | Some InFlight =>
      match outcome with
      | inl created =>
          {| instance := Some created;
             creationPromise := None;
             creations := <[promise := Created created]> (creations m);
             closed := closed m |}
      | inr error =>
          {| instance := instance m;
             creationPromise := None;
             creations := <[promise := Failed error]> (creations m);
             closed := closed m |}
      end
  | _ => m
  end.

(** [stop()] *)
Definition stop (m : Manager) : Manager :=
  {| instance := None;
     creationPromise := None;
     creations := creations m;
     closed := closed m ++ match instance m with Some i => [i] | None => [] end |}.

(** Runs of [getOrCreate] calls and settlements. *)
Inductive Event : Type :=
  | GetOrCreate
  | Settled (promise : nat) (outcome : ServerInstance + JsVal).

Definition step (m : Manager) (ev : Event) : Manager :=
  match ev with
  | GetOrCreate => (getOrCreate m).2
  | Settled promise outcome => settled promise outcome m
  end.

Definition run (evs : list Event) (m : Manager) : Manager := foldl step m evs.

(** *** The single-flight slot, in the words of the specification *)

Inductive Slot : Type :=
  | Idle
  | InProgress (sharedFuture : nat)
  | Ready (value : ServerInstance).

(** The slot a manager is in. *)
Definition slot (m : Manager) : Slot :=
  match instance m, creationPromise m with
  | Some value, _ => Ready value
  | None, Some sharedFuture => InProgress sharedFuture
  | None, None => Idle
  end.

(** A call on the slot: what it returns, the slot after it, and whether
    it starts a creation.  [fresh] is the future a new creation gets. *)
Definition slotCall (fresh : nat) (s : Slot) : Returned * Slot * bool :=
  match s with
  | Idle => (Promise fresh, InProgress fresh, true)
  | InProgress sharedFuture => (Promise sharedFuture, s, false)
  | Ready value => (Instance value, s, false)
  end.

(** The creation behind [future] ends. *)
Definition slotSettled (future : nat) (outcome : ServerInstance + JsVal)
    (s : Slot) : Slot :=
  match s with
  | InProgress sharedFuture =>
      if decide (sharedFuture = future) then
        match outcome with
        | inl value => Ready value
        | inr _ => Idle
        end
      else s
  | _ => s
  end.

(** At most one creation is in flight, the one [creationPromise] holds,
    and none is while an instance is cached. *)
Definition SingleFlight (m : Manager) : Prop :=
  (∀ promise, creations m !! promise = Some InFlight ↔
              creationPromise m = Some promise) ∧
  (∀ promise, creationPromise m = Some promise → instance m = None).

End Server.

(** ** The two processes joined by the wire *)

Module System.

(** Electron carries a message written with [contents.send] to the
    listeners of that renderer, and one written with [ipcRenderer.send] to
    the listeners of [ipcMain], on the same channel and with the same
    arguments. *)
Definition toRenderer (e : Renderer.IpcRendererEvent)
    (r : Renderer.RendererState)
    (message : Main.WebContents * string * list JsVal)
    : Renderer.RendererState :=
  exec (Renderer.ipcRenderer_emit message.1.2 e message.2) r.

Definition toMain (st : Main.MainState) (message : string * list JsVal)
    : Main.MainState :=
  exec (Main.ipcMain_emit message.1 message.2) st.

(** The messages the main process wrote between two of its states reach
    the renderer, oldest first. *)
Definition mainToRenderer (e : Renderer.IpcRendererEvent)
    (st0 st1 : Main.MainState) (r : Renderer.RendererState)
    : Renderer.RendererState :=
  foldl (toRenderer e) r (drop (length (Main.sent st0)) (Main.sent st1)).

(** The messages the renderer wrote between two of its states reach the
    main process, oldest first. *)
Definition rendererToMain (r0 r1 : Renderer.RendererState)
    (st : Main.MainState) : Main.MainState :=
  foldl toMain st
    (drop (length (Renderer.sent (Renderer.wire r0)))
          (Renderer.sent (Renderer.wire r1))).

(** Electron carries a request issued with [ipcRenderer.invoke] to the
    handler of [ipcMain] bound to its channel; [from] is the renderer that
    issued it. *)
Definition requestToMain (from : Main.WebContents) (st : Main.MainState)
    (request : string * list JsVal) : Completion Outcome * Main.MainState :=
  Main.dispatch request.1 {| Main.evSender := from |}
    (nth 0 request.2 VUndefined) st.

(** A generator of tokens for running examples. *)
Definition countingUUID (n : nat) : string := "uuid-" +:+ pretty n.

End System.

(** ** The entity store of the renderer ([useStore]) and its selectors *)

Module Store.

(** [RepoData], [WorkspaceData] and [SessionData]: the fields the store
    reads, the rest of each entity being carried along as it is.  The
    field [id] of a workspace is [workspaceDataId], that of a session
    [sessionDataId]. *)
Record RepoData : Type := {
  path : string;
  workspaceIds : list string;
  repoRest : JsVal
}.

Record WorkspaceData : Type := {
  workspaceDataId : string;
  repoPath : string;
  worktreePath : string;
  sessionIds : list string;
  workspaceRest : JsVal
}.

Record SessionData : Type := {
  sessionDataId : string;
  workspaceId : string;
  sessionRest : JsVal
}.

Inductive Connection : Type := Disconnected | Connecting | Connected | Errored.

Inductive Status : Type := Idle | Processing.

(** [StoreState].  The three tables are objects keyed by path or id, read
    with [table[key]] ([property] and [ownOrAbsent] below).  [transport]
    and [messageBus] hold an object or [null]. *)
Record StoreState : Type := {
  state : Connection;
  transport : option nat;
  messageBus : option nat;
  initialized : bool;
  repos : gmap string RepoData;
  workspaces : gmap string WorkspaceData;
  sessions : gmap string SessionData;
  messages : list JsVal;
  status : Status;
  processingStartTime : Z;
  processingToken : Z;
  selectedRepoPath : option string;
  selectedWorkspaceId : option string;
  selectedSessionId : option string
}.

Definition initial : StoreState :=
  {| state := Disconnected; transport := None; messageBus := None;
     initialized := false;
     repos := ∅; workspaces := ∅; sessions := ∅; messages := [];
     status := Idle; processingStartTime := 0; processingToken := 0;
     selectedRepoPath := None; selectedWorkspaceId := None;
     selectedSessionId := None |}.

(** [set({ ... })] merges the fields it is given into the state. *)
Definition setInitialized (v : bool) (s : StoreState) : StoreState :=
  {| state := state s; transport := transport s; messageBus := messageBus s;
     initialized := v;
     repos := repos s; workspaces := workspaces s; sessions := sessions s;
     messages := messages s;
     status := status s; processingStartTime := processingStartTime s;
     processingToken := processingToken s;
     selectedRepoPath := selectedRepoPath s;
     selectedWorkspaceId := selectedWorkspaceId s;
     selectedSessionId := selectedSessionId s |}.

Definition setRepos (v : gmap string RepoData) (s : StoreState) : StoreState :=
  {| state := state s; transport := transport s; messageBus := messageBus s;
     initialized := initialized s;
     repos := v; workspaces := workspaces s; sessions := sessions s;
     messages := messages s;
     status := status s; processingStartTime := processingStartTime s;
     processingToken := processingToken s;
     selectedRepoPath := selectedRepoPath s;
     selectedWorkspaceId := selectedWorkspaceId s;
     selectedSessionId := selectedSessionId s |}.

Definition setWorkspaces (v : gmap string WorkspaceData) (s : StoreState)
    : StoreState :=
  {| state := state s; transport := transport s; messageBus := messageBus s;
     initialized := initialized s;
     repos := repos s; workspaces := v; sessions := sessions s;
     messages := messages s;
     status := status s; processingStartTime := processingStartTime s;
     processingToken := processingToken s;
     selectedRepoPath := selectedRepoPath s;
     selectedWorkspaceId := selectedWorkspaceId s;
     selectedSessionId := selectedSessionId s |}.

Definition setSessions (v : gmap string SessionData) (s : StoreState)
    : StoreState :=
  {| state := state s; transport := transport s; messageBus := messageBus s;
     initialized := initialized s;
     repos := repos s; workspaces := workspaces s; sessions := v;
     messages := messages s;
     status := status s; processingStartTime := processingStartTime s;
     processingToken := processingToken s;
     selectedRepoPath := selectedRepoPath s;
     selectedWorkspaceId := selectedWorkspaceId s;
     selectedSessionId := selectedSessionId s |}.

Definition setMessagesField (v : list JsVal) (s : StoreState) : StoreState :=
  {| state := state s; transport := transport s; messageBus := messageBus s;
     initialized := initialized s;
     repos := repos s; workspaces := workspaces s; sessions := sessions s;
     messages := v;
     status := status s; processingStartTime := processingStartTime s;
     processingToken := processingToken s;
     selectedRepoPath := selectedRepoPath s;
     selectedWorkspaceId := selectedWorkspaceId s;
     selectedSessionId := selectedSessionId s |}.

Definition setProcessing (st : Status) (start token : Z) (s : StoreState)
    : StoreState :=
  {| state := state s; transport := transport s; messageBus := messageBus s;
     initialized := initialized s;
     repos := repos s; workspaces := workspaces s; sessions := sessions s;
     messages := messages s;
     status := st; processingStartTime := start; processingToken := token;
     selectedRepoPath := selectedRepoPath s;
     selectedWorkspaceId := selectedWorkspaceId s;
     selectedSessionId := selectedSessionId s |}.

Definition setSelectedRepoPath (v : option string) (s : StoreState) : StoreState :=
  {| state := state s; transport := transport s; messageBus := messageBus s;
     initialized := initialized s;
     repos := repos s; workspaces := workspaces s; sessions := sessions s;
     messages := messages s;
     status := status s; processingStartTime := processingStartTime s;
     processingToken := processingToken s;
     selectedRepoPath := v;
     selectedWorkspaceId := selectedWorkspaceId s;
     selectedSessionId := selectedSessionId s |}.

Definition setSelectedWorkspaceId (v : option string) (s : StoreState)
    : StoreState :=
  {| state := state s; transport := transport s; messageBus := messageBus s;
     initialized := initialized s;
     repos := repos s; workspaces := workspaces s; sessions := sessions s;
     messages := messages s;
     status := status s; processingStartTime := processingStartTime s;
     processingToken := processingToken s;
     selectedRepoPath := selectedRepoPath s;
     selectedWorkspaceId := v;
     selectedSessionId := selectedSessionId s |}.

Definition setSelectedSessionId (v : option string) (s : StoreState)
    : StoreState :=
  {| state := state s; transport := transport s; messageBus := messageBus s;
     initialized := initialized s;
     repos := repos s; workspaces := workspaces s; sessions := sessions s;
     messages := messages s;
     status := status s; processingStartTime := processingStartTime s;
     processingToken := processingToken s;
     selectedRepoPath := selectedRepoPath s;
     selectedWorkspaceId := selectedWorkspaceId s;
     selectedSessionId := v |}.

(** [if (x)] on a value that is a string or [null]: the empty string is
    falsy. *)
Definition truthyKey (key : option string) : bool :=
  match key with
  | Some k => negb (String.eqb k "")
  | None => false
  end.

(** [table[key]] on a table of the store.  A table is a plain object, so
    a key it does not hold is looked up in [Object.prototype]: under one
    of the names below the read yields that member, a function or an
    object, which is truthy and has none of the properties of the table's
    entries.  (The names are those of V8's [Object.prototype].) *)
Definition prototypeNames : list string :=
  ["constructor"; "hasOwnProperty"; "isPrototypeOf"; "propertyIsEnumerable";
   "toLocaleString"; "toString"; "valueOf"; "__proto__";
   "__defineGetter__"; "__defineSetter__"; "__lookupGetter__"; "__lookupSetter__"].

Definition inherited (key : string) : bool :=
  existsb (String.eqb key) prototypeNames.

Inductive Property (A : Type) : Type :=
  | Own (entry : A)
  | Inherited
  | Undefined.
Arguments Own {A} entry.
Arguments Inherited {A}.
Arguments Undefined {A}.

Definition property {A} (table : gmap string A) (key : string) : Property A :=
  match table !! key with
  | Some entry => Own entry
  | None => if inherited key then Inherited else Undefined
  end.

(** The keys at which [table[key]] is the lookup of the map: those the
    table holds and those that name no member of [Object.prototype].
    [addWorkspace], [deleteWorkspace], [addSession], [deleteSession],
    [selectRepo] and the selectors below read the tables with the lookup
    of the map, and so stand for the code at such keys. *)
Definition ownOrAbsent {A} (table : gmap string A) (key : string) : Prop :=
  table !! key = None → inherited key = false.


(** *** Repos *)

Definition addRepo (repo : RepoData) (s : StoreState) : StoreState :=
  setRepos (<[path repo := repo]> (repos s)) s.

(** [workspace.sessionIds.forEach((sessionId) => { delete
    newSessions[sessionId]; })] *)
Definition deleteSessionsOf (workspace : WorkspaceData)
    (newSessions : gmap string SessionData) : gmap string SessionData :=
  foldl (λ acc sessionId, delete sessionId acc) newSessions (sessionIds workspace).




(** *** Workspaces *)

Definition addWorkspace (workspace : WorkspaceData) (s : StoreState) : StoreState :=
  let newWorkspaces := <[workspaceDataId workspace := workspace]> (workspaces s) in
  match repos s !! repoPath workspace with
  | Some repo =>
      if bool_decide (workspaceDataId workspace ∈ workspaceIds repo)
      then setWorkspaces newWorkspaces s
      else
        let newRepos :=
          <[repoPath workspace :=
              {| path := path repo;
                 workspaceIds := workspaceIds repo ++ [workspaceDataId workspace];
                 repoRest := repoRest repo |}]> (repos s) in
        setWorkspaces newWorkspaces (setRepos newRepos s)
  | None => setWorkspaces newWorkspaces s
  end.

Definition deleteWorkspace (id : string) (s : StoreState) : StoreState :=
  match workspaces s !! id with
  | None => s
  | Some workspace =>
      let newSessions := deleteSessionsOf workspace (sessions s) in
      let newWorkspaces := delete id (workspaces s) in
      let selected := bool_decide (selectedWorkspaceId s = Some id) in
      let cleared :=
        setSelectedSessionId (if selected then None else selectedSessionId s)
          (setSelectedWorkspaceId (if selected then None else selectedWorkspaceId s)
             (setSessions newSessions (setWorkspaces newWorkspaces s))) in
      match repos s !! repoPath workspace with
      | Some repo =>
          let newRepos :=
            <[repoPath workspace :=
                {| path := path repo;
                   workspaceIds := filter (λ wid, wid ≠ id) (workspaceIds repo);
                   repoRest := repoRest repo |}]> (repos s) in
          setRepos newRepos cleared
      | None => cleared
      end
  end.

(** *** Sessions and messages *)

Definition addSession (session : SessionData) (s : StoreState) : StoreState :=
  let newSessions := <[sessionDataId session := session]> (sessions s) in
  match workspaces s !! workspaceId session with
  | Some workspace =>
      if bool_decide (sessionDataId session ∈ sessionIds workspace)
      then setSessions newSessions s
      else
        let newWorkspaces :=
          <[workspaceId session :=
              {| workspaceDataId := workspaceDataId workspace;
                 repoPath := repoPath workspace;
                 worktreePath := worktreePath workspace;
                 sessionIds := sessionIds workspace ++ [sessionDataId session];
                 workspaceRest := workspaceRest workspace |}]> (workspaces s) in
        setSessions newSessions (setWorkspaces newWorkspaces s)
  | None => setSessions newSessions s
  end.


Definition addMessage (message : JsVal) (s : StoreState) : StoreState :=
  setMessagesField (messages s ++ [message]) s.

Definition setMessages (newMessages : list JsVal) (s : StoreState) : StoreState :=
  setMessagesField newMessages s.

(** *** Selections *)

Definition selectRepo (path : option string) (s : StoreState) : StoreState :=
  let select :=
    setSelectedSessionId None
      (setSelectedWorkspaceId None (setSelectedRepoPath path s)) in
  match path with
  | Some p =>
      match repos s !! p with
      | None => s
      | Some _ => select
      end
  | None => select
  end.

(** [selectWorkspace(id)].  On a member of [Object.prototype]
    [workspace.repoPath] is [undefined], which differs from every selected
    path. *)
Definition selectWorkspace (id : option string) (s : StoreState) : StoreState :=
  let select := setSelectedSessionId None (setSelectedWorkspaceId id s) in
  match id with
  | Some i =>
      match property (workspaces s) i with
      | Undefined => s
      | Own workspace =>
          if truthyKey (selectedRepoPath s) &&
             negb (bool_decide (Some (repoPath workspace) = selectedRepoPath s))
          then s
          else select
      | Inherited => if truthyKey (selectedRepoPath s) then s else select
      end
  | None => select
  end.

Definition selectSession (id : option string) (s : StoreState) : StoreState :=
  setSelectedSessionId id s.

(** *** Selectors *)

(** [ids.map((id) => table[id]).filter((x) => x !== undefined)] *)
Definition getWorkspacesForRepo (s : StoreState) (repoPath : string)
    : list WorkspaceData :=
  match repos s !! repoPath with
  | None => []
  | Some repo => omap (λ id, workspaces s !! id) (workspaceIds repo)
  end.

Definition getSessionsForWorkspace (s : StoreState) (workspaceId : string)
    : list SessionData :=
  match workspaces s !! workspaceId with
  | None => []
  | Some workspace => omap (λ id, sessions s !! id) (sessionIds workspace)
  end.

Definition getSelectedRepo (s : StoreState) : option RepoData :=
  if truthyKey (selectedRepoPath s)
  then selectedRepoPath s ≫= λ p, repos s !! p
  else None.

Definition getSelectedWorkspace (s : StoreState) : option WorkspaceData :=
  if truthyKey (selectedWorkspaceId s)
  then selectedWorkspaceId s ≫= λ i, workspaces s !! i
  else None.

Definition getSelectedSession (s : StoreState) : option SessionData :=
  if truthyKey (selectedSessionId s)
  then selectedSessionId s ≫= λ i, sessions s !! i
  else None.

End Store.

(** ** The store's actions over the message bus *)

Module StoreActions.
Import Store.

(** [try { body } finally { finalizer }]: the finalizer runs when the body
    completes, normally or not, and the completion of the body stands
    (the finalizers of this code complete normally); it does not run while
    the body is parked on an [await]. *)
Definition tryFinally {S A} (body : M S A) (finalizer : M S unit) : M S A :=
  λ st,
    match body st with
    | (Suspended, st') => (Suspended, st')
    | (completion, st') =>
        match finalizer st' with
        | (Normal _, st'') => (completion, st'')
        | (Abrupt e, st'') => (Abrupt e, st'')
        | (Suspended, st'') => (Suspended, st'')
        end
    end.

(** The three handlers [initialize] subscribes. *)
Inductive EventHandler : Type := OnMessage | OnChunk | OnStreamResult.

(** The store and the [MessageBus] it talks to: the calls of
    [messageBus.request] and of [messageBus.onEvent] made so far. *)
Record Env : Type := {
  store : StoreState;
  busRequests : list (string * JsVal);
  busSubscriptions : list (string * EventHandler)
}.

(** [set(...)] *)
Definition set (f : StoreState → StoreState) : M Env unit :=
  modify (λ env,
    {| store := f (store env); busRequests := busRequests env;
       busSubscriptions := busSubscriptions env |}).

(** [`${state}`] *)
Definition connectionName (c : Connection) : string :=
  match c with
  | Disconnected => "disconnected"
  | Connecting => "connecting"
  | Connected => "connected"
  | Errored => "error"
  end.

(** [state !== 'connected' || !messageBus] *)
Definition notConnected (s : StoreState) : bool :=
  match state s, messageBus s with
  | Connected, Some _ => false
  | _, _ => true
  end.

(** [request(method, params)]; [answer] is how the promise of
    [messageBus.request] ends. *)
Definition request (answer : Outcome) (method : string) (params : JsVal)
    : M Env Outcome :=
  λ env,
    if notConnected (store env) then
      (Abrupt (mkError "Error"
         ("Cannot make request when not connected. Current state: " +:+
          connectionName (state (store env)))), env)
    else
      (Normal answer,
       {| store := store env;
          busRequests := busRequests env ++ [(method, params)];
          busSubscriptions := busSubscriptions env |}).

(** [onEvent(event, handler)] *)
Definition onEvent (event : string) (handler : EventHandler) : M Env unit :=
  λ env,
    if notConnected (store env) then
      (Abrupt (mkError "Error"
         ("Cannot subscribe to events when not connected. Current state: " +:+
          connectionName (state (store env)))), env)
    else
      (Normal tt,
       {| store := store env;
          busRequests := busRequests env;
          busSubscriptions := busSubscriptions env ++ [(event, handler)] |}).

(** [initialize()] *)
Definition initialize : M Env unit :=
  λ env,
    if initialized (store env) then (Normal tt, env)
    else
      (_ ← onEvent "message" OnMessage;
       _ ← onEvent "chunk" OnChunk;
       _ ← onEvent "streamResult" OnStreamResult;
       set (setInitialized true)) env.

(** [sendMessage({ message })].  [newSessionId] is the value
    [randomUUID()] yields if it is called, [now] that of [Date.now()],
    [answer] how the promise of [messageBus.request] ends.  The function
    is [async]: an abrupt completion is a rejection of its promise. *)
Definition sendMessage (newSessionId : string) (now : Z) (answer : Outcome)
    (message : string) : M Env unit :=
  λ env,
    let s := store env in
    match selectedWorkspaceId s with
    | Some selectedWorkspaceId =>
        if String.eqb selectedWorkspaceId "" then
          (Abrupt (mkError "Error" "No workspace selected to create session"), env)
        else
          (sessionId ←
             (if truthyKey (selectedSessionId s)
              then mret (default "" (selectedSessionId s))
              else (_ ← set (selectSession (Some newSessionId));
                    mret newSessionId));
           match property (workspaces s) selectedWorkspaceId with
           | Undefined =>
               throw (mkError "Error"
                 ("Workspace " +:+ selectedWorkspaceId +:+ " not found"))
           | workspace =>
               let cwd :=
                 match workspace with
                 | Own workspace => VStr (worktreePath workspace)
                 | _ => VUndefined
                 end in
               _ ← set (setProcessing Processing now 0);
               tryFinally
                 (o ← request answer "session.send"
                        (VObj [("message", VStr message);
                               ("sessionId", VStr sessionId);
                               ("cwd", cwd);
                               ("planMode", VBool false)]);
                  _ ← await o;
                  mret tt)
                 (set (setProcessing Idle 0 0))
           end) env
    | None =>
        (Abrupt (mkError "Error" "No workspace selected to create session"), env)
    end.

End StoreActions.

(** ** The store of the chat input ([useInputStore]) *)

Module InputStore.

(** ['normal' | 'plan' | 'brainstorm'] *)
Inductive PlanMode : Type := normal | plan | brainstorm.

(** ['low' | 'medium' | 'high'], [null] being [None]. *)
Inductive Thinking : Type := low | medium | high.

Record InputState : Type := {
  value : string;
  cursorPosition : Z;
  historyIndex : option Z;
  draftInput : string;
  history : list string;
  queuedMessages : list string;
  planMode : PlanMode;
  thinking : option Thinking;
  pastedTextMap : gmap string string;
  pastedImageMap : gmap string string
}.

Definition initial : InputState :=
  {| value := ""; cursorPosition := 0; historyIndex := None; draftInput := "";
     history := []; queuedMessages := []; planMode := normal; thinking := None;
     pastedTextMap := ∅; pastedImageMap := ∅ |}.

Definition addToHistory (input : string) (s : InputState) : InputState :=
  {| value := value s; cursorPosition := cursorPosition s;
     historyIndex := historyIndex s; draftInput := draftInput s;
     history := history s ++ [input]; queuedMessages := queuedMessages s;
     planMode := planMode s; thinking := thinking s;
     pastedTextMap := pastedTextMap s; pastedImageMap := pastedImageMap s |}.

Definition togglePlanMode (s : InputState) : InputState :=
  {| value := value s; cursorPosition := cursorPosition s;
     historyIndex := historyIndex s; draftInput := draftInput s;
     history := history s; queuedMessages := queuedMessages s;
     planMode :=
       match planMode s with
       | normal => plan
       | plan => brainstorm
       | brainstorm => normal
       end;
     thinking := thinking s;
     pastedTextMap := pastedTextMap s; pastedImageMap := pastedImageMap s |}.

Definition toggleThinking (s : InputState) : InputState :=
  {| value := value s; cursorPosition := cursorPosition s;
     historyIndex := historyIndex s; draftInput := draftInput s;
     history := history s; queuedMessages := queuedMessages s;
     planMode := planMode s;
     thinking :=
       match thinking s with
       | None => Some low
       | Some low => Some medium
       | Some medium => Some high
       | Some high => None
       end;
     pastedTextMap := pastedTextMap s; pastedImageMap := pastedImageMap s |}.

Definition reset (s : InputState) : InputState :=
  {| value := ""; cursorPosition := 0; historyIndex := None; draftInput := "";
     history := history s; queuedMessages := queuedMessages s;
     planMode := planMode s; thinking := thinking s;
     pastedTextMap := pastedTextMap s; pastedImageMap := pastedImageMap s |}.

End InputStore.

(** ** Further notions for the IPC layer *)

Module Ipc.

(** The separator [.] as a character, and whether a name contains it. *)
Definition dot : Ascii.ascii := Ascii.ascii_of_nat 46.

Fixpoint hasDot (name : string) : bool :=
  match name with
  | EmptyString => false
  | String c rest => Ascii.eqb c dot || hasDot rest
  end.

(** The channels [registerMainHandlers] binds for a table, each with its
    procedure, in the order it binds them. *)
Definition entriesOf (mainHandlers : Main.MainHandlers)
    : list (string * Main.MainHandler) :=
  mainHandlers ≫= λ '(namespace, methods),
    (λ '(method, entry), (address namespace method, Main.handler entry)) <$> methods.

Definition channelsOf (mainHandlers : Main.MainHandlers) : list string :=
  (entriesOf mainHandlers).*1.

(** The envelope a [handle] listener writes on [token] for an outcome of
    its callback, if it writes one, and what that envelope makes of the
    promise of the call. *)
Definition envelopesOf (token : string) (o : Outcome) : list (string * list JsVal) :=
  match o with
  | Returns v | Resolves v => [(token, [VObj [("result", v)]])]
  | Throws error | Rejects error => [(token, [VObj [("error", error)]])]
  | NeverSettles => []
  end.

Definition settlementOf (o : Outcome) : option PromiseState :=
  match o with
  | Returns v | Resolves v => Some (Fulfilled v)
  | Throws error | Rejects error => Some (Main.settlement [("error", error)])
  | NeverSettles => None
  end.

(** Runs of the renderer. *)
Inductive RendererEvent : Type :=
  | Listen (namespace method : string) (handler : Renderer.RendererHandler)
  | Handle (namespace method : string) (handler : Renderer.RendererHandler)
  | Cleanup (registration : nat)
  | Receive (channel : string) (e : Renderer.IpcRendererEvent) (args : list JsVal).

Definition rendererStep (r : Renderer.RendererState) (ev : RendererEvent)
    : Renderer.RendererState :=
  match ev with
  | Listen namespace method handler =>
      exec (Renderer.listen (Renderer.ipcRendererHandler namespace method) handler) r
  | Handle namespace method handler =>
      exec (Renderer.handle (Renderer.ipcRendererHandler namespace method) handler) r
  | Cleanup registration => exec (Renderer.cleanup registration) r
  | Receive channel e args => exec (Renderer.ipcRenderer_emit channel e args) r
  end.

Definition rendererRun (evs : list RendererEvent) (r : Renderer.RendererState)
    : Renderer.RendererState :=
  foldl rendererStep r evs.

(** Every registration bears a number that has been handed out. *)
Definition Numbered (r : Renderer.RendererState) : Prop :=
  ∀ entry, entry ∈ Renderer.listeners r → entry.1 < Renderer.nextRegistration r.

(** Runs of the server manager with [stop()]. *)
Inductive ServerEvent : Type :=
  | GetOrCreate
  | Settled (promise : nat) (outcome : Server.ServerInstance + JsVal)
  | Stop.

Definition serverStep (m : Server.Manager) (ev : ServerEvent) : Server.Manager :=
  match ev with
  | GetOrCreate => (Server.getOrCreate m).2
  | Settled promise outcome => Server.settled promise outcome m
  | Stop => Server.stop m
  end.

Definition serverRun (evs : list ServerEvent) (m : Server.Manager) : Server.Manager :=
  foldl serverStep m evs.

(** The promise the manager holds is one of a creation in flight, and it
    holds none while an instance is cached. *)
Definition Held (m : Server.Manager) : Prop :=
  ∀ promise, Server.creationPromise m = Some promise →
             Server.creations m !! promise = Some Server.InFlight ∧
             Server.instance m = None.

End Ipc.

(** * Properties *)

(** ** Running monadic code *)

Ltac unfold_monad :=
  unfold exec, mbind, mret, M_bind, M_ret, bind, ret, throw, suspend,
    modify, gets, tryCatch in *.

Lemma forEach_app {S A} (xs ys : list A) (body : A → M S unit) (st : S) :
  forEach (xs ++ ys) body st =
    match forEach xs body st with
    | (Normal _, st') => forEach ys body st'
    | other => other
    end.
Proof.
  revert st. induction xs as [|x xs IH]; intros st; simpl.
  - unfold ret. by destruct (forEach ys body st) as [[[]| |] ?].
  - unfold bind. destruct (body x st) as [[[]| |] st']; [apply IH|done..].
Qed.

(** ** Routing of requests in the main process *)

Module MainFacts.
Import Main.


Lemma registryGrows_refl st : registryGrows st st.
Proof. split; [done|by destruct st]. Qed.

Lemma registryGrows_trans st1 st2 st3 :
  registryGrows st1 st2 → registryGrows st2 st3 → registryGrows st1 st3.
Proof.
  intros [Hsub1 Heq1] [Hsub2 Heq2]. split; [by etrans|].
  rewrite Heq2 at 1. rewrite Heq1 at 1. done.
Qed.

Lemma ipcMain_handle_grows channel captured st :
  registryGrows st (exec (ipcMain_handle channel captured) st).
Proof.
  unfold exec, ipcMain_handle.
  destruct (invokeHandlers st !! channel) eqn:Hlook; simpl.
  - apply registryGrows_refl.
  - split; simpl; [by apply insert_subseteq|done].
Qed.

Lemma ipcMain_handle_bound channel captured st st' :
  ipcMain_handle channel captured st = (Normal tt, st') →
  invokeHandlers st' !! channel = Some captured.
Proof.
  unfold ipcMain_handle.
  destruct (invokeHandlers st !! channel); [done|].
  intros [= <-]. simpl. by rewrite lookup_insert_eq.
Qed.

Lemma forEach_grows {A} (xs : list A) (body : A → M MainState unit) :
  (∀ x st, registryGrows st (exec (body x) st)) →
  ∀ st, registryGrows st (exec (forEach xs body) st).
Proof.
  intros Hbody. induction xs as [|x xs IH]; intros st; simpl.
  - apply registryGrows_refl.
  - specialize (Hbody x st). unfold exec, bind in *.
    destruct (body x st) as [[[]| |] st1]; simpl in *; [|done..].
    eapply registryGrows_trans; [done|apply IH].
Qed.

(** When a loop of registrations completes, every element it walked is
    bound as its own iteration bound it. *)
Lemma forEach_bound {A} (xs : list A) (body : A → M MainState unit)
    (bound : A → MainState → Prop) :
  (∀ x st, registryGrows st (exec (body x) st)) →
  (∀ x st st', body x st = (Normal tt, st') → bound x st') →
  (∀ x st st', bound x st → registryGrows st st' → bound x st') →
  ∀ st st', forEach xs body st = (Normal tt, st') →
  ∀ x, x ∈ xs → bound x st'.
Proof.
  intros Hgrow Hbody Hmono. induction xs as [|y xs IH]; intros st st' Hrun x Hin.
  - by apply elem_of_nil in Hin.
  - simpl in Hrun. unfold bind in Hrun.
    destruct (body y st) as [[[]| |] st1] eqn:Hy; [|done..].
    apply elem_of_cons in Hin as [->|Hin]; [|by eapply IH].
    eapply Hmono; [by eapply Hbody|].
    pose proof (forEach_grows xs body Hgrow st1) as Hrest.
    unfold exec in Hrest. by rewrite Hrun in Hrest.
Qed.


Lemma registerMethods_grows namespace methods st :
  registryGrows st (exec (registerMethods namespace methods) st).
Proof.
  apply forEach_grows. intros [method entry] st0. apply ipcMain_handle_grows.
Qed.

Lemma registerMainHandlers_grows mainHandlers st :
  registryGrows st (exec (registerMainHandlers mainHandlers) st).
Proof.
  apply forEach_grows. intros [namespace methods] st0.
  apply (registerMethods_grows namespace methods).
Qed.

Lemma registerMainHandlers_bound mainHandlers st st' namespace methods method entry :
  registerMainHandlers mainHandlers st = (Normal tt, st') →
  (namespace, methods) ∈ mainHandlers →
  (method, entry) ∈ methods →
  invokeHandlers st' !! (address namespace method) = Some (handler entry).
Proof.
  intros Hrun Hns Hm.
  pose (bound := λ (ns : string * list (string * MainHandlerEntry)) (s : MainState),
          ∀ m en, (m, en) ∈ ns.2 →
                  invokeHandlers s !! (address ns.1 m) = Some (handler en)).
  enough (bound (namespace, methods) st') as Hb by (by apply Hb).
  eapply (forEach_bound mainHandlers _ bound); [| | |exact Hrun|exact Hns].
  - intros [ns ms] s. apply (registerMethods_grows ns ms).
  - intros [ns ms] s s' Hinner m en Hin. simpl in *.
    pose (inner := λ (me : string * MainHandlerEntry) (s0 : MainState),
            invokeHandlers s0 !! (address ns me.1) = Some (handler me.2)).
    enough (inner (m, en) s') as Hi by exact Hi.
    eapply (forEach_bound ms _ inner); [| | |exact Hinner|exact Hin].
    + intros [m0 en0] s0. apply ipcMain_handle_grows.
    + intros [m0 en0] s0 s0' Hh. by eapply ipcMain_handle_bound.
    + intros [m0 en0] s0 s0' Hb0 [Hsub _]. unfold inner in *.
      by eapply lookup_weaken.
  - intros [ns ms] s s' Hb0 [Hsub _] m en Hin.
    eapply lookup_weaken; [by apply Hb0|done].
Qed.

(** *** What the operations leave alone *)

Lemma settle_unfold promise s st :
  exec (settle promise s) st =
    match promises st !! promise with
    | Some Pending => setPromises (<[promise := s]>) st
    | _ => st
    end.
Proof. done. Qed.

(** A one-shot listener touches the promise it captured, and nothing
    else. *)
Lemma onceListener_frame promise args st :
  ∃ ps, exec (onceListener promise args) st = setPromises (λ _, ps) st ∧
        length ps = length (promises st) ∧
        (∀ q, q ≠ promise → ps !! q = promises st !! q) ∧
        (∀ q s, promises st !! q = Some s → s ≠ Pending → ps !! q = Some s).
Proof.
  assert (∃ ps, st = setPromises (λ _, ps) st ∧
        length ps = length (promises st) ∧
        (∀ q, q ≠ promise → ps !! q = promises st !! q) ∧
        (∀ q s, promises st !! q = Some s → s ≠ Pending → ps !! q = Some s))
    as Hsame by (exists (promises st); by destruct st).
  assert (∀ s, ∃ ps, exec (settle promise s) st = setPromises (λ _, ps) st ∧
        length ps = length (promises st) ∧
        (∀ q, q ≠ promise → ps !! q = promises st !! q) ∧
        (∀ q s', promises st !! q = Some s' → s' ≠ Pending → ps !! q = Some s'))
    as Hsettle.
  { intros s. rewrite settle_unfold.
    destruct (promises st !! promise) as [[]|] eqn:Hp; try exact Hsame.
    exists (<[promise := s]> (promises st)). split_and!; [done|..].
    - by rewrite length_insert.
    - intros q Hq. by rewrite list_lookup_insert_ne.
    - intros q s' Hq Hs'. destruct (decide (q = promise)) as [->|Hne].
      + congruence.
      + by rewrite list_lookup_insert_ne. }
  unfold onceListener.
  destruct (nth 0 args VUndefined); try exact Hsame;
    match goal with |- context [if ?b then _ else _] => destruct b end;
    apply Hsettle.
Qed.

(** An emit on [channel] shortens the listeners of that channel and
    touches the promises of the listeners it runs, and nothing else. *)
Lemma emitOnce_frame channel args listeners : ∀ st,
  ∃ ls ps,
    exec (emitOnce channel listeners args) st =
      setOnceListeners (λ _, ls) (setPromises (λ _, ps) st) ∧
    length ps = length (promises st) ∧
    (∀ ch, ch ≠ channel → ls !! ch = onceListeners st !! ch) ∧
    (listeners = [] → ls = onceListeners st) ∧
    (∀ q, q ∈ default [] (ls !! channel) → q ∈ listeners ∨ listeners = []) ∧
    (∀ q, q ∉ listeners → ps !! q = promises st !! q) ∧
    (∀ q s, promises st !! q = Some s → s ≠ Pending → ps !! q = Some s).
Proof.
  induction listeners as [|promise rest IH]; intros st.
  - exists (onceListeners st), (promises st). split_and!; try done.
    + by destruct st.
    + intros q _. by right.
  - simpl. unfold_monad. simpl.
    set (st1 := setOnceListeners (<[channel := rest]>) st).
    destruct (onceListener_frame promise args st1)
      as (ps1 & Hst2 & Hlen1 & Hother1 & Hkeep1).
    unfold exec in Hst2.
    destruct (onceListener promise args st1) as [[[]| |] st2] eqn:Hrun;
      simpl in Hst2; subst st2.
    + destruct (IH (setPromises (λ _, ps1) st1))
        as (ls & ps & Heq & Hlen & Hch & Hnil & Hin & Hnotin & Hkeep).
      unfold exec in Heq. exists ls, ps. split_and!.
      * rewrite Heq. done.
      * by rewrite Hlen.
      * intros ch Hne. rewrite Hch by done. simpl. by rewrite lookup_insert_ne.
      * done.
      * intros q Hq. left. destruct (Hin q Hq) as [Hr| ->].
        -- by right.
        -- rewrite (Hnil eq_refl) in Hq. simpl in Hq.
           rewrite lookup_insert_eq in Hq. simpl in Hq.
           by apply elem_of_nil in Hq.
      * intros q Hq. apply not_elem_of_cons in Hq as [Hne Hq].
        rewrite Hnotin by done. simpl. by apply Hother1.
      * intros q s Hq Hs. apply Hkeep; [|done]. simpl. by apply Hkeep1.
    + exists (<[channel := rest]> (onceListeners st)), ps1. split_and!; try done.
      * intros ch Hne. by rewrite lookup_insert_ne.
      * intros q Hq. rewrite lookup_insert_eq in Hq. left. by right.
      * intros q Hq. apply not_elem_of_cons in Hq as [Hne Hq]. by apply Hother1.
    + exists (<[channel := rest]> (onceListeners st)), ps1. split_and!; try done.
      * intros ch Hne. by rewrite lookup_insert_ne.
      * intros q Hq. rewrite lookup_insert_eq in Hq. left. by right.
      * intros q Hq. apply not_elem_of_cons in Hq as [Hne Hq]. by apply Hother1.
Qed.


Section Correlation.

Variable randomUUID : nat → string.


Lemma invoke_unfold contents namespace method args st :
  invoke (getRendererCaller randomUUID contents namespace method) args st =
    (Normal (length (promises st)),
     {| invokeHandlers := invokeHandlers st;
        onceListeners :=
          <[randomUUID (uuidCount st) :=
              (listenersOn st (randomUUID (uuidCount st)) ++ [length (promises st)])]>
            (onceListeners st);
        promises := promises st ++ [Pending];
        uuidCount := S (uuidCount st);
        sent := sent st ++
          [(contents, invokeAddress namespace method,
            VStr (randomUUID (uuidCount st)) :: args)];
        calls := calls st |}).
Proof. done. Qed.

Lemma send_unfold contents namespace method args st :
  send (getRendererCaller randomUUID contents namespace method) args st =
    (Normal VUndefined,
     setSent (sent st ++ [(contents, sendAddress namespace method, args)]) st).
Proof. done. Qed.

Lemma dispatch_frame channel e payload st :
  ∃ cs, exec (dispatch channel e payload) st = setCalls cs st.
Proof.
  unfold exec, dispatch.
  destruct (invokeHandlers st !! channel); simpl; [by eexists|].
  exists (calls st). by destruct st.
Qed.

Lemma ipcMain_emit_frame channel args st :
  ∃ ls ps,
    exec (ipcMain_emit channel args) st =
      setOnceListeners (λ _, ls) (setPromises (λ _, ps) st) ∧
    length ps = length (promises st) ∧
    (∀ ch, ch ≠ channel → ls !! ch = onceListeners st !! ch) ∧
    (∀ q, q ∈ default [] (ls !! channel) → q ∈ listenersOn st channel) ∧
    (∀ q, q ∉ listenersOn st channel → ps !! q = promises st !! q) ∧
    (∀ q s, promises st !! q = Some s → s ≠ Pending → ps !! q = Some s).
Proof.
  destruct (emitOnce_frame channel args (listenersOn st channel) st)
    as (ls & ps & Heq & Hlen & Hch & Hnil & Hin & Hnotin & Hkeep).
  exists ls, ps. split_and!; try done.
  intros q Hq. destruct (Hin q Hq) as [|Hempty]; [done|].
  rewrite (Hnil Hempty) in Hq. done.
Qed.

(** The three kinds of step that leave waiters and promises alone. *)
Lemma quiet_step st ev :
  match ev with Invoke _ _ _ _ | Message _ _ => False | _ => True end →
  onceListeners (step randomUUID st ev) = onceListeners st ∧
  promises (step randomUUID st ev) = promises st ∧
  uuidCount (step randomUUID st ev) = uuidCount st.
Proof.
  destruct ev as [mainHandlers|c ns m args|c ns m args|channel e payload|channel args];
    simpl; try done; intros _.
  - destruct (registerMainHandlers_grows mainHandlers st) as [_ ->]. done.
  - destruct (dispatch_frame channel e payload st) as [cs ->]. done.
Qed.

Lemma listenersOn_quiet st st' channel :
  onceListeners st' = onceListeners st →
  listenersOn st' channel = listenersOn st channel.
Proof. unfold listenersOn. by intros ->. Qed.

Lemma WellFormed_initial : WellFormed randomUUID initial.
Proof. intros channel q Hq. by apply elem_of_nil in Hq. Qed.

Lemma WellFormed_step st ev :
  WellFormed randomUUID st → WellFormed randomUUID (step randomUUID st ev).
Proof.
  intros Hwf.
  destruct ev as [mainHandlers|c ns m args|c ns m args|channel e payload|channel args].
  1,2,4: (edestruct quiet_step as (Hl & Hp & Hu); [|
    intros ch q Hq; rewrite (listenersOn_quiet _ _ _ Hl) in Hq;
    rewrite Hp, Hu; by apply Hwf]; done).
  - intros ch q. unfold step, exec. rewrite invoke_unfold. simpl.
    unfold listenersOn at 1. simpl. rewrite length_app. simpl.
    destruct (decide (ch = randomUUID (uuidCount st))) as [->|Hne].
    + rewrite lookup_insert_eq. simpl. intros [Hq| ->%list_elem_of_singleton]%elem_of_app.
      * destruct (Hwf _ _ Hq) as [Hlt (k & Hk & Hch)]. split; [lia|].
        exists k. split; [lia|done].
      * split; [lia|]. exists (uuidCount st). split; [lia|done].
    + rewrite lookup_insert_ne by done. intros Hq.
      destruct (Hwf _ _ Hq) as [Hlt (k & Hk & Hch)]. split; [lia|].
      exists k. split; [lia|done].
  - intros ch q. simpl.
    destruct (ipcMain_emit_frame channel args st)
      as (ls & ps & -> & Hlen & Hch & Hin & _ & _).
    unfold listenersOn at 1. simpl. rewrite Hlen. intros Hq.
    apply Hwf. destruct (decide (ch = channel)) as [->|Hne].
    + by apply Hin.
    + unfold listenersOn. by rewrite <- Hch.
Qed.

Lemma WellFormed_run evs : ∀ st,
  WellFormed randomUUID st → WellFormed randomUUID (run randomUUID evs st).
Proof.
  induction evs as [|ev evs IH]; intros st Hwf; simpl; [done|].
  apply IH. by apply WellFormed_step.
Qed.

Hypothesis randomUUID_distinct : Inj (=) (=) randomUUID.

Lemma invoke_Waiting contents namespace method args st :
  WellFormed randomUUID st →
  Waiting randomUUID (exec (invoke (getRendererCaller randomUUID contents namespace method) args) st)
    (randomUUID (uuidCount st)) (length (promises st)).
Proof.
  intros Hwf. unfold exec. rewrite invoke_unfold. simpl.
  assert (listenersOn st (randomUUID (uuidCount st)) = []) as Hfree.
  { destruct (listenersOn st (randomUUID (uuidCount st))) as [|q qs] eqn:Hl; [done|].
    destruct (Hwf (randomUUID (uuidCount st)) q) as [_ (k & Hk & Heq)].
    - rewrite Hl. apply elem_of_cons. by left.
    - apply randomUUID_distinct in Heq. lia. }
  rewrite Hfree. unfold Waiting, listenersOn. simpl. split_and!.
  - by rewrite lookup_insert_eq.
  - by rewrite lookup_app_r, Nat.sub_diag.
  - intros channel Hne. rewrite lookup_insert_ne by done. intros Hq.
    destruct (Hwf channel _ Hq) as [Hlt _]. lia.
  - exists (uuidCount st). split; [lia|done].
Qed.

Lemma Waiting_step st ev token promise :
  Waiting randomUUID st token promise →
  (∀ args, ev ≠ Message token args) →
  Waiting randomUUID (step randomUUID st ev) token promise.
Proof.
  intros (Hl & Hp & Hothers & k & Hk & Htoken) Hev.
  destruct ev as [mainHandlers|c ns m args|c ns m args|channel e payload|channel args].
  1,2,4: (edestruct quiet_step as (Hl' & Hp' & Hu'); [|
    unfold Waiting; rewrite (listenersOn_quiet _ _ _ Hl'), Hp', Hu';
    split_and!; [done|done| |by exists k];
    intros ch Hne; rewrite (listenersOn_quiet _ _ _ Hl'); by apply Hothers]; done).
  - unfold step, exec. rewrite invoke_unfold.
    assert (randomUUID (uuidCount st) ≠ token) as Hfresh.
    { rewrite Htoken. intros Heq%randomUUID_distinct. lia. }
    assert (promise < length (promises st)) as Hlt by (by eapply lookup_lt_Some).
    unfold Waiting, listenersOn in *. simpl. split_and!.
    + by rewrite lookup_insert_ne.
    + by rewrite lookup_app_l.
    + intros ch Hne. destruct (decide (ch = randomUUID (uuidCount st))) as [->|Hne'].
      * rewrite lookup_insert_eq. simpl.
        intros [Hq| ->%list_elem_of_singleton]%elem_of_app; [|lia].
        by eapply Hothers.
      * rewrite lookup_insert_ne by done. by apply Hothers.
    + exists k. split; [lia|done].
  - assert (channel ≠ token) as Hne by (intros ->; by eapply Hev).
    simpl. destruct (ipcMain_emit_frame channel args st)
      as (ls & ps & -> & Hlen & Hch & Hin & Hnotin & _).
    unfold Waiting, listenersOn in *. simpl. split_and!.
    + by rewrite Hch.
    + rewrite Hnotin; [done|]. by apply Hothers.
    + intros ch Hne'. destruct (decide (ch = channel)) as [->|Hne''].
      * intros Hq. eapply (Hothers channel); [done|]. by apply Hin.
      * rewrite Hch by done. by apply Hothers.
    + by exists k.
Qed.

Lemma Waiting_run evs : ∀ st token promise,
  Waiting randomUUID st token promise →
  (∀ args, Message token args ∉ evs) →
  Waiting randomUUID (run randomUUID evs st) token promise.
Proof.
  induction evs as [|ev evs IH]; intros st token promise Hw Hevs; simpl; [done|].
  apply IH.
  - apply Waiting_step; [done|]. intros args ->. eapply Hevs, elem_of_cons. by left.
  - intros args Hin. eapply Hevs, elem_of_cons. by right.
Qed.

End Correlation.

(** The envelope on the token's own channel settles the promise and
    consumes the waiter. *)
Lemma Waiting_reply randomUUID st token promise fields more :
  Waiting randomUUID st token promise →
  let st' := step randomUUID st (Message token (VObj fields :: more)) in
  promises st' !! promise = Some (settlement fields) ∧
  listenersOn st' token = [].
Proof.
  intros (Hl & Hp & _ & _). simpl. unfold exec, ipcMain_emit. rewrite Hl.
  simpl. unfold_monad. unfold onceListener, settlement. simpl.
  assert (promise < length (promises st)) as Hlt by (by eapply lookup_lt_Some).
  destruct (truthy (get_field "error" fields)); simpl.
  all: unfold settle, modify; simpl; rewrite Hp; simpl; unfold listenersOn; simpl.
  all: by rewrite list_lookup_insert_eq, lookup_insert_eq.
Qed.





Lemma invokeHandlers_step randomUUID st ev :
  invokeHandlers st ⊆ invokeHandlers (step randomUUID st ev).
Proof.
  destruct ev as [mainHandlers|c ns m args|c ns m args|channel e payload|channel args].
  - simpl. by destruct (registerMainHandlers_grows mainHandlers st) as [? _].
  - done.
  - done.
  - simpl. destruct (dispatch_frame channel e payload st) as [cs ->]. done.
  - simpl. destruct (ipcMain_emit_frame channel args st) as (ls & ps & -> & _).
    done.
Qed.

Lemma invokeHandlers_run randomUUID evs : ∀ st,
  invokeHandlers st ⊆ invokeHandlers (run randomUUID evs st).
Proof.
  induction evs as [|ev evs IH]; intros st; simpl; [done|].
  etrans; [apply (invokeHandlers_step randomUUID st ev)|apply IH].
Qed.



Lemma countingUUID_inj : Inj (=) (=) System.countingUUID.
Proof.
  intros a b Heq. unfold System.countingUUID in Heq.
  apply (inj (String.app _)) in Heq. by apply (inj pretty) in Heq.
Qed.

End MainFacts.

Import MainFacts.

(** C1.  Once [registerMainHandlers] has registered a table, then at any
    later time a request on the channel [namespace.method] of one of its
    entries invokes the procedure of that entry, once, with the argument
    [{ context: { sender: e.sender }, input: payload }], invokes nothing
    else, and answers with what that procedure returns. *)
Theorem registered_procedure_is_dispatched
    randomUUID mainHandlers st st' namespace methods method entry later e payload :
  Main.registerMainHandlers mainHandlers st = (Normal tt, st') →
  (namespace, methods) ∈ mainHandlers →
  (method, entry) ∈ methods →
  let now := Main.run randomUUID later st' in
  let args :=
    {| Main.context := {| Main.sender := Main.evSender e |};
       Main.input := payload |} in
  Main.dispatch (address namespace method) e payload now =
    (Normal (Main.handler entry args),
     Main.setCalls (Main.calls now ++ [(Main.handler entry, args)]) now).
Proof.
  intros Hreg Hns Hm now args.
  pose proof (registerMainHandlers_bound _ _ _ _ _ _ _ Hreg Hns Hm) as Hbound.
  eapply lookup_weaken in Hbound; [|apply (invokeHandlers_run randomUUID later)].
  unfold Main.dispatch. fold now in Hbound. by rewrite Hbound.
Qed.

Lemma registered_procedure_is_dispatched_witness :
  let add : Main.MainHandler := λ a,
    match Main.input a with
    | VObj fields =>
        match get_field "a" fields, get_field "b" fields with
        | VNum x, VNum y => Resolves (VNum (x + y))
        | _, _ => Rejects (VStr "not numbers")
        end
    | _ => Rejects (VStr "not an object")
    end in
  let mainHandlers := [("math", [("add", Main.createMainHandler add)])] in
  let st' := exec (Main.registerMainHandlers mainHandlers) Main.initial in
  let input := VObj [("a", VNum 5); ("b", VNum 10)] in
  Renderer.requests
    (exec (Renderer.ipcMainCaller "math" "add" input) Renderer.initialWire) =
    [("math.add", [input])] ∧
  (System.requestToMain {| Main.wcId := 1 |} st' ("math.add", [input])).1 =
    Normal (Resolves (VNum 15)).
Proof.
  intros add mainHandlers st' input. split; [reflexivity|].
  refine (f_equal fst
    (registered_procedure_is_dispatched System.countingUUID mainHandlers
       Main.initial st' "math" [("add", Main.createMainHandler add)] "add"
       (Main.createMainHandler add) [] {| Main.evSender := {| Main.wcId := 1 |} |}
       input _ _ _)).
  - reflexivity.
  - apply elem_of_cons. by left.
  - apply elem_of_cons. by left.
Defined.

(** Two entries whose names flatten to one channel: the second
    registration throws and the table is not registered. *)
Example colliding_channels_are_not_registered :
  let entry := Main.createMainHandler (λ _, Resolves VNull) in
  (Main.registerMainHandlers
     [("a.b", [("c", entry)]); ("a", [("b.c", entry)])] Main.initial).1 =
    Abrupt (mkError "Error" "Attempted to register a second handler for 'a.b.c'").
Proof. reflexivity. Qed.


(** A message on the token's channel that carries no envelope consumes
    the waiter and leaves the promise pending. *)
Example reply_without_envelope_settles_nothing :
  let st1 :=
    Main.run System.countingUUID
      [Main.Invoke {| Main.wcId := 1 |} "math" "double" [VNum 21];
       Main.Message "uuid-0" []] Main.initial in
  Main.promises st1 = [Pending] ∧ Main.listenersOn st1 "uuid-0" = [].
Proof. split; reflexivity. Qed.


(** ** Listeners of the renderer *)

Module RendererFacts.
Import Renderer.

Lemma listen_unfold namespace method handler r :
  listen (ipcRendererHandler namespace method) handler r =
    (Normal (nextRegistration r),
     {| wire := wire r;
        listeners := listeners r ++
          [(nextRegistration r, (sendAddress namespace method, listenListener handler))];
        nextRegistration := S (nextRegistration r) |}).
Proof. done. Qed.

Lemma handle_unfold namespace method handler r :
  handle (ipcRendererHandler namespace method) handler r =
    (Normal (nextRegistration r),
     {| wire := wire r;
        listeners := listeners r ++
          [(nextRegistration r,
            (invokeAddress namespace method, handleListener ipcRenderer_send handler))];
        nextRegistration := S (nextRegistration r) |}).
Proof. done. Qed.

(** What the listener of [listen] does with a message. *)
Lemma listenListener_run handler e args w :
  exec (listenListener handler e args) w =
    {| sent := sent w; requests := requests w;
       calls := calls w ++ [(handler, args)] |}.
Proof.
  unfold listenListener, call. unfold_monad. by destruct (handler args).
Qed.

(** What the listener of [handle] does with a message [(token, ...args)]. *)
Lemma handleListener_run handler e token args w :
  handleListener ipcRenderer_send handler e (VStr token :: args) w =
    (Normal tt,
     {| sent := sent w ++
          match handler args with
          | Returns v | Resolves v => [(token, [VObj [("result", v)]])]
          | Throws error | Rejects error => [(token, [VObj [("error", error)]])]
          | NeverSettles => []
          end;
        requests := requests w;
        calls := calls w ++ [(handler, args)] |}).
Proof.
  unfold handleListener, async, call, await. unfold_monad. simpl.
  destruct (handler args); simpl; try done.
  by rewrite app_nil_r.
Qed.

(** A message on a channel with a single listener runs that listener. *)
Lemma ipcRenderer_emit_single channel e args r l :
  listenersOn r channel = [l] →
  wire (exec (ipcRenderer_emit channel e args) r) = exec (l e args) (wire r).
Proof.
  intros Hl. unfold exec, ipcRenderer_emit. rewrite Hl. simpl. unfold bind, ret.
  by destruct (l e args (wire r)) as [[[]| |] w].
Qed.

Lemma ipcRenderer_emit_none channel e args r :
  listenersOn r channel = [] →
  ipcRenderer_emit channel e args r = (Normal tt, r).
Proof.
  intros Hl. unfold ipcRenderer_emit. rewrite Hl. simpl. by destruct r.
Qed.

Lemma ipcRenderer_emit_wire channel e args r :
  wire (exec (ipcRenderer_emit channel e args) r) =
    exec (forEach (listenersOn r channel) (λ l, l e args)) (wire r).
Proof.
  unfold exec, ipcRenderer_emit.
  by destruct (forEach (listenersOn r channel) (λ l, l e args) (wire r)).
Qed.

Lemma listenersOn_appended r registration channel l :
  listenersOn
    {| wire := wire r;
       listeners := listeners r ++ [(registration, (channel, l))];
       nextRegistration := S (nextRegistration r) |} channel =
    listenersOn r channel ++ [l].
Proof.
  unfold listenersOn. simpl.
  rewrite filter_app, fmap_app. simpl.
  rewrite filter_cons_True by done. done.
Qed.

Lemma listenersOn_registered r registration channel l :
  listenersOn r channel = [] →
  listenersOn
    {| wire := wire r;
       listeners := listeners r ++ [(registration, (channel, l))];
       nextRegistration := S (nextRegistration r) |} channel = [l].
Proof.
  unfold listenersOn. simpl. intros Hl.
  rewrite filter_app, fmap_app, Hl. simpl.
  rewrite filter_cons_True by done. done.
Qed.

End RendererFacts.

(** ** A call of [invoke] answered by a [handle] callback *)

Module RoundTrip.
Import System.

(** A call of [invoke] whose message reaches the one [handle] callback
    of its channel, and whose answer, if the callback gives one, comes
    back: what the renderer wrote and how the promise of the call ends. *)
Lemma invoke_handle randomUUID :
  Inj (=) (=) randomUUID →
  ∀ before contents namespace method args handler e r,
    Renderer.listenersOn r (invokeAddress namespace method) = [] →
    let st := Main.run randomUUID before Main.initial in
    let token := randomUUID (Main.uuidCount st) in
    let promise := length (Main.promises st) in
    let r1 := exec (Renderer.handle (Renderer.ipcRendererHandler namespace method) handler) r in
    let st1 :=
      exec (Main.invoke (Main.getRendererCaller randomUUID contents namespace method)
              args) st in
    let r2 := mainToRenderer e st st1 r1 in
    let st2 := rendererToMain r1 r2 st1 in
    Renderer.calls (Renderer.wire r2) =
      Renderer.calls (Renderer.wire r) ++ [(handler, args)] ∧
    Renderer.sent (Renderer.wire r2) =
      Renderer.sent (Renderer.wire r) ++
        match handler args with
        | Returns v | Resolves v => [(token, [VObj [("result", v)]])]
        | Throws error | Rejects error => [(token, [VObj [("error", error)]])]
        | NeverSettles => []
        end ∧
    Main.promises st2 !! promise =
      Some match handler args with
           | Returns v | Resolves v => Fulfilled v
           | Throws error | Rejects error => Main.settlement [("error", error)]
           | NeverSettles => Pending
           end.
Proof.
  intros Hinj before contents namespace method args handler e r Hfree
    st token promise r1 st1 r2 st2.
  assert (Main.WellFormed randomUUID st) as Hwf
    by apply WellFormed_run, WellFormed_initial.
  pose proof (invoke_Waiting randomUUID Hinj contents namespace method args st Hwf)
    as Hwaiting.
  fold st1 token promise in Hwaiting.
  assert (Renderer.wire r2 =
    (Renderer.handleListener Renderer.ipcRenderer_send handler e
       (VStr token :: args) (Renderer.wire r)).2) as Hwire.
  { subst r2 st1 r1. unfold mainToRenderer, exec.
    rewrite invoke_unfold, RendererFacts.handle_unfold. cbn [snd Main.sent].
    rewrite drop_app_length. cbn [foldl]. unfold toRenderer. cbn [fst snd].
    erewrite RendererFacts.ipcRenderer_emit_single;
      [|by apply RendererFacts.listenersOn_registered].
    done. }
  rewrite RendererFacts.handleListener_run in Hwire. cbn [snd] in Hwire.
  assert (st2 = foldl toMain st1
    match handler args with
    | Returns v | Resolves v => [(token, [VObj [("result", v)]])]
    | Throws error | Rejects error => [(token, [VObj [("error", error)]])]
    | NeverSettles => []
    end) as Hst2.
  { subst st2. unfold rendererToMain. rewrite Hwire. cbn [Renderer.sent].
    subst r1. unfold exec. rewrite RendererFacts.handle_unfold. cbn [snd Renderer.wire].
    by rewrite drop_app_length. }
  rewrite Hwire. cbn [Renderer.sent Renderer.calls]. split_and!; [done|done|].
  rewrite Hst2.
  destruct (handler args) as [v|error|v|error|]; cbn [foldl].
  1,3: exact (proj1 (Waiting_reply randomUUID st1 token promise
                        [("result", v)] [] Hwaiting)).
  1,2: exact (proj1 (Waiting_reply randomUUID st1 token promise
                        [("error", error)] [] Hwaiting)).
  apply Hwaiting.
Qed.

End RoundTrip.

(** ** Errors across the process boundary *)

(** C3, as amended.  When a [handle] callback fails with a truthy error
    value (it throws it or returns a promise that rejects with it), the
    listener writes [{ error }] with that value on the token's channel, and
    the promise of the [invoke] call rejects with that very value. *)
Theorem handle_failure_rejects_invoke randomUUID :
  Inj (=) (=) randomUUID →
  ∀ before contents namespace method args handler error e r,
    Renderer.listenersOn r (invokeAddress namespace method) = [] →
    handler args = Throws error ∨ handler args = Rejects error →
    truthy error = true →
    let st := Main.run randomUUID before Main.initial in
    let token := randomUUID (Main.uuidCount st) in
    let promise := length (Main.promises st) in
    let r1 := exec (Renderer.handle (Renderer.ipcRendererHandler namespace method) handler) r in
    let st1 :=
      exec (Main.invoke (Main.getRendererCaller randomUUID contents namespace method)
              args) st in
    let r2 := System.mainToRenderer e st st1 r1 in
    let st2 := System.rendererToMain r1 r2 st1 in
    Renderer.sent (Renderer.wire r2) =
      Renderer.sent (Renderer.wire r) ++ [(token, [VObj [("error", error)]])] ∧
    Main.promises st2 !! promise = Some (Rejected error).
Proof.
  intros Hinj before contents namespace method args handler error e r Hfree
    Hfails Htruthy st token promise r1 st1 r2 st2.
  destruct (RoundTrip.invoke_handle randomUUID Hinj before contents namespace
              method args handler e r Hfree) as (_ & Hsent & Hpromise).
  fold st token promise r1 st1 r2 st2 in Hsent, Hpromise. split.
  - rewrite Hsent. by destruct Hfails as [-> | ->].
  - rewrite Hpromise. unfold Main.settlement. simpl.
    destruct Hfails as [-> | ->]; by rewrite Htruthy.
Qed.

Lemma handle_failure_rejects_invoke_witness :
  let handler : Renderer.RendererHandler := λ _, Throws (VStr "boom") in
  let r1 := exec (Renderer.handle (Renderer.ipcRendererHandler "test" "fail") handler)
              Renderer.initial in
  let st1 :=
    exec (Main.invoke (Main.getRendererCaller System.countingUUID
                         {| Main.wcId := 1 |} "test" "fail") []) Main.initial in
  let r2 := System.mainToRenderer {| Renderer.evSenderId := 0 |} Main.initial st1 r1 in
  let st2 := System.rendererToMain r1 r2 st1 in
  Renderer.sent (Renderer.wire r2) = [("uuid-0", [VObj [("error", VStr "boom")]])] ∧
  Main.promises st2 !! 0 = Some (Rejected (VStr "boom")).
Proof.
  apply (handle_failure_rejects_invoke System.countingUUID countingUUID_inj
           [] {| Main.wcId := 1 |} "test" "fail" [] (λ _, Throws (VStr "boom"))
           (VStr "boom") {| Renderer.evSenderId := 0 |} Renderer.initial).
  - reflexivity.
  - left. reflexivity.
  - reflexivity.
Defined.

(** A callback that throws [null]: the envelope [{ error: null }] is
    written, and the promise of the call fulfils with [undefined]. *)
Lemma handle_failure_null_resolves_invoke :
  let handler : Renderer.RendererHandler := λ _, Throws VNull in
  let r1 := exec (Renderer.handle (Renderer.ipcRendererHandler "test" "fail") handler)
              Renderer.initial in
  let st1 :=
    exec (Main.invoke (Main.getRendererCaller System.countingUUID
                         {| Main.wcId := 1 |} "test" "fail") []) Main.initial in
  let r2 := System.mainToRenderer {| Renderer.evSenderId := 0 |} Main.initial st1 r1 in
  let st2 := System.rendererToMain r1 r2 st1 in
  Renderer.sent (Renderer.wire r2) = [("uuid-0", [VObj [("error", VNull)]])] ∧
  Main.promises st2 !! 0 = Some (Fulfilled VUndefined) ∧
  Main.promises st2 !! 0 ≠ Some (Rejected VNull).
Proof. vm_compute. split_and!; [reflexivity|reflexivity|discriminate]. Qed.

(** C10.  The promise of an [invoke] call rejects exactly when the [error]
    field of the envelope that reaches its waiter is truthy, with that
    value; otherwise it fulfils with the [result] field.  So a callback
    that fails with a falsy value makes the call fulfil with [undefined]. *)
Theorem invoke_rejects_iff_error_truthy randomUUID :
  Inj (=) (=) randomUUID →
  ∀ before contents namespace method args,
    let st := Main.run randomUUID before Main.initial in
    let token := randomUUID (Main.uuidCount st) in
    let promise := length (Main.promises st) in
    let st1 :=
      exec (Main.invoke (Main.getRendererCaller randomUUID contents namespace method)
              args) st in
    (∀ later fields more,
       (∀ a, Main.Message token a ∉ later) →
       let st3 :=
         Main.step randomUUID (Main.run randomUUID later st1)
           (Main.Message token (VObj fields :: more)) in
       let error := get_field "error" fields in
       Main.promises st3 !! promise =
         Some (if truthy error then Rejected error
               else Fulfilled (get_field "result" fields)) ∧
       ((∃ reason, Main.promises st3 !! promise = Some (Rejected reason)) ↔
        truthy error = true)) ∧
    (∀ handler thrown e r,
       Renderer.listenersOn r (invokeAddress namespace method) = [] →
       handler args = Throws thrown ∨ handler args = Rejects thrown →
       truthy thrown = false →
       let r1 := exec (Renderer.handle (Renderer.ipcRendererHandler namespace method) handler) r in
       let r2 := System.mainToRenderer e st st1 r1 in
       let st2 := System.rendererToMain r1 r2 st1 in
       Renderer.sent (Renderer.wire r2) =
         Renderer.sent (Renderer.wire r) ++ [(token, [VObj [("error", thrown)]])] ∧
       Main.promises st2 !! promise = Some (Fulfilled VUndefined)).
Proof.
  intros Hinj before contents namespace method args st token promise st1. split.
  - intros later fields more Hlater st3 error.
    assert (Main.WellFormed randomUUID st) as Hwf
      by apply WellFormed_run, WellFormed_initial.
    pose proof (invoke_Waiting randomUUID Hinj contents namespace method args st Hwf)
      as Hwaiting.
    fold st1 token promise in Hwaiting.
    pose proof (Waiting_run randomUUID Hinj later st1 token promise Hwaiting Hlater)
      as Hw2.
    destruct (Waiting_reply randomUUID _ token promise fields more Hw2)
      as [Hsettled _].
    fold st3 in Hsettled.
    rewrite Hsettled. unfold Main.settlement. fold error. split; [done|].
    destruct (truthy error); split; try done.
    + intros _. by eexists.
    + by intros [reason [=]].
  - intros handler thrown e r Hfree Hfails Hfalsy r1 r2 st2.
    destruct (RoundTrip.invoke_handle randomUUID Hinj before contents namespace
                method args handler e r Hfree) as (_ & Hsent & Hpromise).
    fold st token promise r1 st1 r2 st2 in Hsent, Hpromise. split.
    + rewrite Hsent. by destruct Hfails as [-> | ->].
    + rewrite Hpromise. unfold Main.settlement. simpl.
      destruct Hfails as [-> | ->]; by rewrite Hfalsy.
Qed.

Lemma invoke_rejects_iff_error_truthy_witness :
  let handler : Renderer.RendererHandler := λ _, Rejects (VNum 0) in
  let r1 := exec (Renderer.handle (Renderer.ipcRendererHandler "test" "fail") handler)
              Renderer.initial in
  let st1 :=
    exec (Main.invoke (Main.getRendererCaller System.countingUUID
                         {| Main.wcId := 1 |} "test" "fail") []) Main.initial in
  let r2 := System.mainToRenderer {| Renderer.evSenderId := 0 |} Main.initial st1 r1 in
  let st2 := System.rendererToMain r1 r2 st1 in
  (Main.promises
     (Main.step System.countingUUID st1
        (Main.Message "uuid-0" [VObj [("error", VStr "")]])) !! 0 =
   Some (Fulfilled VUndefined)) ∧
  Main.promises st2 !! 0 = Some (Fulfilled VUndefined).
Proof.
  destruct (invoke_rejects_iff_error_truthy System.countingUUID countingUUID_inj
              [] {| Main.wcId := 1 |} "test" "fail" []) as [Hwaiter Hhandler].
  split.
  - refine (proj1 (Hwaiter [] [("error", VStr "")] [] _)).
    intros a Hin. by apply elem_of_nil in Hin.
  - refine (proj2 (Hhandler (λ _, Rejects (VNum 0)) (VNum 0)
                     {| Renderer.evSenderId := 0 |} Renderer.initial _ _ _)).
    + reflexivity.
    + right. reflexivity.
    + reflexivity.
Defined.

(** ** Answers of a [handle] callback *)

(** C4, as amended.  [handle] binds its listener to
    [invoke:namespace.method].  On a message [(token, ...args)] the
    listener calls the callback once with [args]; when the callback
    completes with a value it writes [{ result }] once on the token's
    channel, when it fails it writes [{ error }] once, and as long as the
    callback's promise is pending it writes nothing. *)
Theorem handle_answers_once_settled namespace method handler e token args r :
  Renderer.listeners
    (exec (Renderer.handle (Renderer.ipcRendererHandler namespace method) handler) r) =
    Renderer.listeners r ++
      [(Renderer.nextRegistration r,
        (invokeAddress namespace method,
         Renderer.handleListener Renderer.ipcRenderer_send handler))] ∧
  ∀ w,
    let w' :=
      exec (Renderer.handleListener Renderer.ipcRenderer_send handler e
              (VStr token :: args)) w in
    Renderer.calls w' = Renderer.calls w ++ [(handler, args)] ∧
    Renderer.sent w' =
      Renderer.sent w ++
        match handler args with
        | Returns v | Resolves v => [(token, [VObj [("result", v)]])]
        | Throws error | Rejects error => [(token, [VObj [("error", error)]])]
        | NeverSettles => []
        end.
Proof.
  split; [done|]. intros w w'. subst w'. unfold exec.
  by rewrite RendererFacts.handleListener_run.
Qed.

(** A callback whose promise never settles: no envelope is written. *)
Lemma handle_pending_callback_writes_nothing :
  let w' :=
    exec (Renderer.handleListener Renderer.ipcRenderer_send (λ _, NeverSettles)
            {| Renderer.evSenderId := 0 |} [VStr "uuid-0"; VNum 1])
         Renderer.initialWire in
  Renderer.sent w' = [] ∧
  ¬ ∃ envelope,
      Renderer.sent w' =
        Renderer.sent Renderer.initialWire ++ [("uuid-0", [envelope])].
Proof. split; [reflexivity|]. intros [envelope Heq]. discriminate Heq. Qed.

(** ** Fire-and-forget messages *)

(** C7.  The listener of [listen] calls the callback with the arguments
    of the message and drops the event.  So [send(...args)] from the main
    process makes a callback bound with [listen] on the same namespace and
    method run once with exactly [args], after the listeners bound to the
    channel before it, provided none of those throws. *)
Theorem send_delivers_arguments_to_listen
    randomUUID contents namespace method args handler e st r :
  let r1 := exec (Renderer.listen (Renderer.ipcRendererHandler namespace method) handler) r in
  let st1 :=
    exec (Main.send (Main.getRendererCaller randomUUID contents namespace method) args)
         st in
  let r2 := System.mainToRenderer e st st1 r1 in
  let earlier :=
    forEach (Renderer.listenersOn r (sendAddress namespace method)) (λ l, l e args)
      (Renderer.wire r) in
  earlier.1 = Normal tt →
  (∀ w, Renderer.calls (exec (Renderer.listenListener handler e args) w) =
        Renderer.calls w ++ [(handler, args)]) ∧
  Main.sent st1 = Main.sent st ++ [(contents, sendAddress namespace method, args)] ∧
  Renderer.calls (Renderer.wire r2) = Renderer.calls earlier.2 ++ [(handler, args)] ∧
  Renderer.sent (Renderer.wire r2) = Renderer.sent earlier.2.
Proof.
  intros r1 st1 r2 earlier Hearlier.
  assert (Renderer.wire r2 =
    exec (Renderer.listenListener handler e args) earlier.2) as Hwire.
  { subst r2 st1 r1. unfold System.mainToRenderer.
    replace (exec (Main.send (Main.getRendererCaller randomUUID contents namespace
                                method) args) st)
      with (Main.setSent
              (Main.sent st ++ [(contents, sendAddress namespace method, args)]) st)
      by done.
    replace (exec (Renderer.listen (Renderer.ipcRendererHandler namespace method)
                     handler) r)
      with (Renderer.listen (Renderer.ipcRendererHandler namespace method)
              handler r).2 by done.
    rewrite RendererFacts.listen_unfold.
    cbn [snd Main.sent Main.setSent].
    rewrite drop_app_length. cbn [foldl]. unfold System.toRenderer. cbn [fst snd].
    rewrite RendererFacts.ipcRenderer_emit_wire, RendererFacts.listenersOn_appended.
    cbn [Renderer.wire]. unfold exec. rewrite forEach_app. fold earlier.
    destruct earlier as [[[]| |] w]; simpl in Hearlier; try done.
    simpl. unfold bind, ret.
    by destruct (Renderer.listenListener handler e args w) as [[[]| |] w']. }
  split_and!.
  - intros w. by rewrite RendererFacts.listenListener_run.
  - done.
  - by rewrite Hwire, RendererFacts.listenListener_run.
  - by rewrite Hwire, RendererFacts.listenListener_run.
Qed.

Lemma send_delivers_arguments_to_listen_witness :
  let handler : Renderer.RendererHandler := λ _, Returns VUndefined in
  let r1 := exec (Renderer.listen (Renderer.ipcRendererHandler "progress" "update") handler)
              Renderer.initial in
  let st1 :=
    exec (Main.send (Main.getRendererCaller System.countingUUID {| Main.wcId := 1 |}
                       "progress" "update") [VNum 50; VNum 100]) Main.initial in
  let r2 := System.mainToRenderer {| Renderer.evSenderId := 0 |} Main.initial st1 r1 in
  Renderer.calls (Renderer.wire r2) = [(handler, [VNum 50; VNum 100])].
Proof.
  refine (proj1 (proj2 (proj2
    (send_delivers_arguments_to_listen System.countingUUID {| Main.wcId := 1 |}
       "progress" "update" [VNum 50; VNum 100] (λ _, Returns VUndefined)
       {| Renderer.evSenderId := 0 |} Main.initial Renderer.initial _)))).
  reflexivity.
Defined.

(** C6, as amended.  [send(...args)] on a [WebContents] object that has
    not been destroyed completes at once and normally, returns
    [undefined], and does nothing but write [args] on
    [send:namespace.method]; it does not look at the renderer, and when no
    listener is bound to that channel the message is dropped there.
    [send] has no guard of its own: on a destroyed object the exception of
    [webContents.send] reaches the caller and nothing is written. *)
Theorem send_is_fire_and_forget randomUUID contents namespace method args st e r :
  let sending :=
    Main.send (Main.rendererCallerOf randomUUID contents namespace method) args st in
  (Main.destroyed contents = false →
   sending.1 = Normal VUndefined ∧
   Main.sent sending.2 =
     Main.sent st ++
       [(Main.target contents, "send:" +:+ namespace +:+ "." +:+ method, args)] ∧
   Main.invokeHandlers sending.2 = Main.invokeHandlers st ∧
   Main.onceListeners sending.2 = Main.onceListeners st ∧
   Main.promises sending.2 = Main.promises st ∧
   Main.uuidCount sending.2 = Main.uuidCount st ∧
   Main.calls sending.2 = Main.calls st) ∧
  (Main.destroyed contents = true →
   sending = (Abrupt (mkError "TypeError" "Object has been destroyed"), st)) ∧
  (∀ alive,
     Main.send (Main.getRendererCaller randomUUID alive namespace method) args st =
     Main.send (Main.rendererCallerOf randomUUID (Main.live alive) namespace method)
       args st) ∧
  (Renderer.listenersOn r (sendAddress namespace method) = [] →
   Renderer.ipcRenderer_emit (sendAddress namespace method) e args r = (Normal tt, r)).
Proof.
  intros sending. subst sending. split_and!.
  - intros Halive. cbn. unfold Main.webContents_send. rewrite Halive.
    by split_and!.
  - intros Hgone. cbn. unfold Main.webContents_send. by rewrite Hgone.
  - done.
  - apply RendererFacts.ipcRenderer_emit_none.
Qed.

Lemma send_is_fire_and_forget_witness :
  let sending :=
    Main.send (Main.rendererCallerOf System.countingUUID (Main.live {| Main.wcId := 1 |})
                 "notification" "show") [VStr "Hello from main!"] Main.initial in
  sending.1 = Normal VUndefined ∧
  Main.sent sending.2 =
    [({| Main.wcId := 1 |}, "send:notification.show", [VStr "Hello from main!"])] ∧
  Renderer.ipcRenderer_emit "send:notification.show" {| Renderer.evSenderId := 0 |}
    [VStr "Hello from main!"] Renderer.initial = (Normal tt, Renderer.initial).
Proof.
  intros sending.
  destruct (send_is_fire_and_forget System.countingUUID (Main.live {| Main.wcId := 1 |})
              "notification" "show" [VStr "Hello from main!"] Main.initial
              {| Renderer.evSenderId := 0 |} Renderer.initial)
    as (Halive & _ & _ & Hdrop).
  destruct (Halive eq_refl) as (Hdone & Hsent & _).
  split; [exact Hdone|]. split; [exact Hsent|]. apply Hdrop. reflexivity.
Defined.

(** A [WebContents] object that has been destroyed: [send] throws, and
    writes nothing. *)
Lemma send_to_destroyed_contents_throws :
  let contents := {| Main.target := {| Main.wcId := 1 |}; Main.destroyed := true |} in
  let sending :=
    Main.send (Main.rendererCallerOf System.countingUUID contents "notification" "show")
      [VStr "Hello from main!"] Main.initial in
  sending.1 = Abrupt (mkError "TypeError" "Object has been destroyed") ∧
  sending.1 ≠ Normal VUndefined ∧
  Main.sent sending.2 = [].
Proof. vm_compute. split_and!; [reflexivity|discriminate|reflexivity]. Qed.

(** ** Channel names *)

(** C5.  The channel strings are [namespace.method] for requests of the
    renderer, [send:namespace.method] for fire-and-forget messages of the
    main process and [invoke:namespace.method] for its requests, and the
    side that binds and the side that calls use the same string. *)
Theorem channel_names_agree
    randomUUID contents namespace method entry handler input args st r w :
  address namespace method = namespace +:+ "." +:+ method ∧
  sendAddress namespace method = "send:" +:+ namespace +:+ "." +:+ method ∧
  invokeAddress namespace method = "invoke:" +:+ namespace +:+ "." +:+ method ∧
  Main.invokeHandlers
    (exec (Main.registerMainHandlers [(namespace, [(method, entry)])]) Main.initial) =
    {[ address namespace method := Main.handler entry ]} ∧
  Renderer.requests (exec (Renderer.ipcMainCaller namespace method input) w) =
    Renderer.requests w ++ [(address namespace method, [input])] ∧
  Main.sent
    (exec (Main.send (Main.getRendererCaller randomUUID contents namespace method) args)
       st) =
    Main.sent st ++ [(contents, sendAddress namespace method, args)] ∧
  Renderer.listeners
    (exec (Renderer.listen (Renderer.ipcRendererHandler namespace method) handler) r) =
    Renderer.listeners r ++
      [(Renderer.nextRegistration r,
        (sendAddress namespace method, Renderer.listenListener handler))] ∧
  Main.sent
    (exec (Main.invoke (Main.getRendererCaller randomUUID contents namespace method)
             args) st) =
    Main.sent st ++
      [(contents, invokeAddress namespace method,
        VStr (randomUUID (Main.uuidCount st)) :: args)] ∧
  Renderer.listeners
    (exec (Renderer.handle (Renderer.ipcRendererHandler namespace method) handler) r) =
    Renderer.listeners r ++
      [(Renderer.nextRegistration r,
        (invokeAddress namespace method,
         Renderer.handleListener Renderer.ipcRenderer_send handler))].
Proof. split_and!; done. Qed.

(** ** Requests of the renderer *)

(** C8.  [caller.namespace.method(input)] is the request/response
    primitive it was given, applied to the channel [namespace.method] and
    to [input] alone, and its result is the result of that primitive.
    With [ipcRenderer.invoke] the renderer issues that one request and
    writes no message: no token is minted or sent. *)
Theorem main_caller_forwards_input namespace method input :
  (∀ (R : Type) (ipcInvoke : string → list JsVal → R),
     Renderer.createMainCaller ipcInvoke namespace method input =
       ipcInvoke (address namespace method) [input]) ∧
  (∀ w,
     Renderer.ipcMainCaller namespace method input w =
       (Normal (length (Renderer.requests w)),
        {| Renderer.sent := Renderer.sent w;
           Renderer.requests :=
             Renderer.requests w ++ [(namespace +:+ "." +:+ method, [input])];
           Renderer.calls := Renderer.calls w |})).
Proof. split; done. Qed.

(** ** The single-flight manager *)

Module ServerFacts.
Import Server.

Lemma SingleFlight_initial : SingleFlight initial.
Proof. split; [|done]. intros promise. split; [|done]. simpl. by destruct promise. Qed.

Lemma SingleFlight_getOrCreate m : SingleFlight m → SingleFlight (getOrCreate m).2.
Proof.
  intros Hm. pose proof Hm as [Hflight Hcached]. unfold getOrCreate.
  destruct (instance m) as [existing|] eqn:Hi; [exact Hm|].
  destruct (creationPromise m) as [inProgress|] eqn:Hc; [exact Hm|].
  split; simpl; [|done].
  intros promise. split.
  - intros Hp. destruct (decide (promise < length (creations m))) as [Hlt|Hge].
    + rewrite lookup_app_l in Hp by done. by apply Hflight in Hp.
    + apply lookup_lt_Some in Hp. rewrite length_app in Hp. simpl in Hp.
      f_equal. lia.
  - intros [= <-]. by rewrite lookup_app_r, Nat.sub_diag.
Qed.

Lemma SingleFlight_settled promise outcome m :
  SingleFlight m → SingleFlight (settled promise outcome m).
Proof.
  intros Hm. pose proof Hm as [Hflight Hcached]. unfold settled.
  destruct (creations m !! promise) as [[]|] eqn:Hp; try exact Hm.
  assert (∀ c q, c ≠ InFlight →
            <[promise := c]> (creations m) !! q = Some InFlight ↔ None = Some q)
    as Hnone.
  { intros c q Hc. split; [|done]. intros Hq.
    destruct (decide (q = promise)) as [->|Hne].
    - rewrite list_lookup_insert_eq in Hq by (by eapply lookup_lt_Some). congruence.
    - rewrite list_lookup_insert_ne in Hq by done.
      apply Hflight in Hq. apply Hflight in Hp. congruence. }
  destruct outcome as [created|error]; split; simpl; try done;
    intros q; by apply Hnone.
Qed.

Lemma SingleFlight_run evs : ∀ m, SingleFlight m → SingleFlight (run evs m).
Proof.
  induction evs as [|ev evs IH]; intros m Hm; simpl; [done|].
  apply IH. destruct ev; simpl.
  - by apply SingleFlight_getOrCreate.
  - by apply SingleFlight_settled.
Qed.

(** A call follows the slot. *)
Lemma getOrCreate_slot m :
  let fresh := length (creations m) in
  (getOrCreate m).1 = (slotCall fresh (slot m)).1.1 ∧
  slot (getOrCreate m).2 = (slotCall fresh (slot m)).1.2 ∧
  length (creations (getOrCreate m).2) =
    fresh + (if (slotCall fresh (slot m)).2 then 1 else 0).
Proof.
  unfold getOrCreate, slot.
  destruct (instance m) eqn:Hi; simpl.
  - rewrite Hi. split_and!; [done|done|lia].
  - destruct (creationPromise m) eqn:Hc; simpl; rewrite ?Hi, ?Hc.
    + split_and!; [done|done|lia].
    + split_and!; [done|done|]. rewrite length_app. done.
Qed.

(** A settlement follows the slot. *)
Lemma settled_slot promise outcome m :
  SingleFlight m →
  slot (settled promise outcome m) = slotSettled promise outcome (slot m) ∧
  length (creations (settled promise outcome m)) = length (creations m).
Proof.
  intros [Hflight Hcached].
  assert (creations m !! promise ≠ Some InFlight →
          slotSettled promise outcome (slot m) = slot m) as Hsame.
  { intros Hp. unfold slot. destruct (instance m); [done|].
    destruct (creationPromise m) as [q|] eqn:Hc; [|done]. simpl.
    rewrite decide_False; [done|]. intros ->. apply Hp. by apply Hflight. }
  unfold settled.
  destruct (creations m !! promise) as [[|created0|error0]|] eqn:Hp.
  - apply Hflight in Hp as Hcp. unfold slot. rewrite Hcp, (Hcached _ Hcp). simpl.
    rewrite decide_True by done.
    destruct outcome; simpl; by rewrite length_insert.
  - by rewrite Hsame.
  - by rewrite Hsame.
  - by rewrite Hsame.
Qed.

(** Calls made while a creation is in progress change nothing. *)
Lemma calls_in_progress m shared n :
  slot m = InProgress shared →
  run (replicate n GetOrCreate) m = m ∧ getOrCreate m = (Promise shared, m).
Proof.
  intros Hslot.
  assert (getOrCreate m = (Promise shared, m)) as Hcall.
  { unfold slot in Hslot. unfold getOrCreate.
    destruct (instance m); [done|].
    destruct (creationPromise m); [|done]. by injection Hslot as ->. }
  split; [|done]. induction n as [|n IH]; simpl; [done|]. by rewrite Hcall.
Qed.

(** Once an instance is cached, calls and settlements change nothing. *)
Lemma ready_is_stable m value later :
  SingleFlight m → slot m = Ready value →
  run later m = m ∧ getOrCreate m = (Instance value, m).
Proof.
  intros [Hflight Hcached] Hslot.
  assert (instance m = Some value) as Hi.
  { unfold slot in Hslot. destruct (instance m); [by injection Hslot as ->|].
    by destruct (creationPromise m). }
  assert (getOrCreate m = (Instance value, m)) as Hcall
    by (unfold getOrCreate; by rewrite Hi).
  split; [|done]. induction later as [|ev later IH]; simpl; [done|].
  destruct ev as [|promise outcome]; simpl.
  - by rewrite Hcall.
  - unfold settled. destruct (creations m !! promise) as [[]|] eqn:Hp; try done.
    apply Hflight, Hcached in Hp. congruence.
Qed.

End ServerFacts.

(** C9.  In every run of [getOrCreate] calls and settlements of creations
    the manager moves as the single-flight slot does.  A call that finds
    the slot idle starts the one creation and returns its promise, and
    every call made while that creation is in progress returns the same
    promise and starts nothing.  When the creation succeeds the instance is
    cached, and every later call returns it and starts nothing.  When the
    creation fails the slot is idle again and the next call starts a new
    creation. *)
Theorem getOrCreate_is_single_flight evs :
  let m := Server.run evs Server.initial in
  let fresh := length (Server.creations m) in
  ((Server.getOrCreate m).1 = (Server.slotCall fresh (Server.slot m)).1.1 ∧
   Server.slot (Server.getOrCreate m).2 = (Server.slotCall fresh (Server.slot m)).1.2 ∧
   length (Server.creations (Server.getOrCreate m).2) =
     fresh + (if (Server.slotCall fresh (Server.slot m)).2 then 1 else 0)) ∧
  (∀ promise outcome,
     Server.slot (Server.settled promise outcome m) =
       Server.slotSettled promise outcome (Server.slot m) ∧
     length (Server.creations (Server.settled promise outcome m)) = fresh) ∧
  match Server.slot m with
  | Server.Idle =>
      let started := Server.getOrCreate m in
      started.1 = Server.Promise fresh ∧
      Server.creations started.2 !! fresh = Some Server.InFlight ∧
      ∀ n,
        let m' := Server.run (replicate n Server.GetOrCreate) started.2 in
        m' = started.2 ∧ Server.getOrCreate m' = (started.1, started.2)
  | Server.InProgress shared =>
      Server.creations m !! shared = Some Server.InFlight ∧
      Server.getOrCreate m = (Server.Promise shared, m) ∧
      (∀ created,
         let m' := Server.settled shared (inl created) m in
         Server.slot m' = Server.Ready created ∧
         Server.creations m' !! shared = Some (Server.Created created)) ∧
      (∀ error,
         let m' := Server.settled shared (inr error) m in
         Server.slot m' = Server.Idle ∧
         Server.creations m' !! shared = Some (Server.Failed error) ∧
         (Server.getOrCreate m').1 = Server.Promise fresh ∧
         fresh ≠ shared ∧
         Server.creations (Server.getOrCreate m').2 !! fresh = Some Server.InFlight)
  | Server.Ready value =>
      ∀ later,
        let m' := Server.run later m in
        m' = m ∧ Server.getOrCreate m' = (Server.Instance value, m')
  end.
Proof.
  intros m fresh.
  assert (Server.SingleFlight m) as Hinv
    by apply ServerFacts.SingleFlight_run, ServerFacts.SingleFlight_initial.
  split_and!.
  - apply ServerFacts.getOrCreate_slot.
  - apply ServerFacts.getOrCreate_slot.
  - apply ServerFacts.getOrCreate_slot.
  - intros promise outcome. by apply ServerFacts.settled_slot.
  - destruct (Server.slot m) as [|shared|value] eqn:Hslot.
    + assert (Server.instance m = None ∧ Server.creationPromise m = None) as [Hi Hc].
      { unfold Server.slot in Hslot. destruct (Server.instance m); [done|].
        by destruct (Server.creationPromise m). }
      assert (Server.getOrCreate m =
        (Server.Promise fresh,
         {| Server.instance := Server.instance m;
            Server.creationPromise := Some fresh;
            Server.creations := Server.creations m ++ [Server.InFlight];
            Server.closed := Server.closed m |})) as Hcall.
      { unfold Server.getOrCreate. by rewrite Hi, Hc. }
      rewrite Hcall. simpl. split_and!; [done| |].
      * by rewrite lookup_app_r, Nat.sub_diag.
      * intros n.
        destruct (ServerFacts.calls_in_progress
          {| Server.instance := Server.instance m;
             Server.creationPromise := Some fresh;
             Server.creations := Server.creations m ++ [Server.InFlight];
             Server.closed := Server.closed m |} fresh n) as [Hrun Hagain].
        { unfold Server.slot. simpl. by rewrite Hi. }
        by rewrite Hrun.
    + assert (Server.instance m = None ∧ Server.creationPromise m = Some shared)
        as [Hi Hc].
      { unfold Server.slot in Hslot. destruct (Server.instance m); [done|].
        destruct (Server.creationPromise m); [|done]. by injection Hslot as ->. }
      assert (Server.creations m !! shared = Some Server.InFlight) as Hp
        by (by apply Hinv).
      assert (shared < fresh) as Hlt by (by eapply lookup_lt_Some).
      split_and!.
      * done.
      * by apply (ServerFacts.calls_in_progress m shared 0).
      * intros created. unfold Server.settled, Server.slot. rewrite Hp. simpl.
        by rewrite list_lookup_insert_eq.
      * intros error. unfold Server.settled, Server.getOrCreate, Server.slot.
        rewrite Hp. simpl. rewrite Hi. simpl.
        rewrite list_lookup_insert_eq, length_insert by done.
        split_and!; [done|done|done|lia|].
        by rewrite lookup_app_r, length_insert, Nat.sub_diag
          by (rewrite length_insert; lia).
    + intros later m'.
      destruct (ServerFacts.ready_is_stable m value later Hinv Hslot) as [Hrun Hcall].
      subst m'. by rewrite Hrun.
Qed.

(** ** The entity store *)

Module StoreFacts.
Import Store.

Ltac split_member :=
  match goal with
  | |- context [bool_decide (?x ∈ ?l)] =>
      let H := fresh "Hmem" in
      destruct (decide (x ∈ l)) as [H|H];
      [rewrite (bool_decide_eq_true_2 _ H)|rewrite (bool_decide_eq_false_2 _ H)]
  end.

Ltac solve_member :=
  rewrite ?lookup_delete_eq, ?lookup_delete_ne by done; try done;
  try (exfalso;
       match goal with
       | H : ?x ∉ ?y :: ?l |- _ => apply H, elem_of_cons; first [by left|by right]
       | H : ?x ∈ ?y :: ?l |- _ => apply elem_of_cons in H as [?|?]; done
       end).

Lemma foldl_delete_lookup {A} (ids : list string) : ∀ (m : gmap string A) k,
  foldl (λ acc id, delete id acc) m ids !! k =
    if bool_decide (k ∈ ids) then None else m !! k.
Proof.
  induction ids as [|id ids IH]; intros m k.
  - case_bool_decide as Hin; [by apply elem_of_nil in Hin|done].
  - cbn [foldl]. rewrite IH.
    destruct (decide (k = id)) as [->|Hne]; repeat split_member; solve_member.
Qed.

Lemma deleteSessionsOf_lookup workspace newSessions sid :
  deleteSessionsOf workspace newSessions !! sid =
    if bool_decide (sid ∈ sessionIds workspace) then None else newSessions !! sid.
Proof. apply foldl_delete_lookup. Qed.









Lemma filter_ne_fresh (id : string) (ids : list string) :
  id ∉ ids → filter (λ x, x ≠ id) ids = ids.
Proof.
  induction ids as [|x ids IH]; intros Hfresh; [done|].
  apply not_elem_of_cons in Hfresh as [Hne Hfresh].
  rewrite filter_cons_True by done. by rewrite IH.
Qed.

Lemma filter_ne_gone (id : string) (ids : list string) :
  id ∉ filter (λ x, x ≠ id) ids.
Proof. intros [Hne _]%list_elem_of_filter. done. Qed.

Lemma omap_lookup_insert_fresh {A} (ids : list string) (m : gmap string A) id x :
  id ∉ ids → omap (λ i, <[id := x]> m !! i) ids = omap (λ i, m !! i) ids.
Proof.
  induction ids as [|i ids IH]; intros Hfresh; [done|].
  apply not_elem_of_cons in Hfresh as [Hne Hfresh].
  cbn [omap list_omap]. rewrite lookup_insert_ne by done.
  specialize (IH Hfresh). cbn [omap] in IH. by rewrite IH.
Qed.

End StoreFacts.



(** X2.  [deleteWorkspace] of a workspace that is in the store, whose
    [repoPath] is a repo of the store or names no member of
    [Object.prototype], removes the workspace and the sessions it lists
    and keeps the other sessions; its id leaves the [workspaceIds] of its
    parent repo, the other repos are not touched; the workspace and
    session selections are cleared when it was the selected workspace. *)
Theorem deleteWorkspace_cascades id s w :
  Store.workspaces s !! id = Some w →
  Store.ownOrAbsent (Store.repos s) (Store.repoPath w) →
  let s' := Store.deleteWorkspace id s in
  Store.workspaces s' = delete id (Store.workspaces s) ∧
  (∀ sid, Store.sessions s' !! sid =
          if bool_decide (sid ∈ Store.sessionIds w) then None
          else Store.sessions s !! sid) ∧
  (∀ p, p ≠ Store.repoPath w → Store.repos s' !! p = Store.repos s !! p) ∧
  Store.repos s' !! Store.repoPath w =
    (λ repo,
       {| Store.path := Store.path repo;
          Store.workspaceIds := filter (λ wid, wid ≠ id) (Store.workspaceIds repo);
          Store.repoRest := Store.repoRest repo |})
    <$> Store.repos s !! Store.repoPath w ∧
  (∀ repo', Store.repos s' !! Store.repoPath w = Some repo' →
            id ∉ Store.workspaceIds repo') ∧
  Store.selectedRepoPath s' = Store.selectedRepoPath s ∧
  (Store.selectedWorkspaceId s', Store.selectedSessionId s') =
    if bool_decide (Store.selectedWorkspaceId s = Some id) then (None, None)
    else (Store.selectedWorkspaceId s, Store.selectedSessionId s).
Proof.
  intros Hw _ s'. subst s'. unfold Store.deleteWorkspace. rewrite Hw.
  destruct (Store.repos s !! Store.repoPath w) as [repo|] eqn:Hrepo; cbn.
  - split_and!; try done.
    + intros sid. apply StoreFacts.deleteSessionsOf_lookup.
    + intros p Hp. by rewrite lookup_insert_ne.
    + by rewrite lookup_insert_eq.
    + intros repo'. rewrite lookup_insert_eq. intros [= <-]. cbn.
      apply StoreFacts.filter_ne_gone.
    + by destruct (bool_decide _).
  - split_and!; try done.
    + intros sid. apply StoreFacts.deleteSessionsOf_lookup.
    + intros repo'. by rewrite Hrepo.
    + by destruct (bool_decide _).
Qed.

Lemma deleteWorkspace_cascades_witness :
  let repo :=
    {| Store.path := "/test/repo"; Store.workspaceIds := [];
       Store.repoRest := VNull |} in
  let workspace :=
    {| Store.workspaceDataId := "workspace-1"; Store.repoPath := "/test/repo";
       Store.worktreePath := "/test/repo"; Store.sessionIds := [];
       Store.workspaceRest := VNull |} in
  let session :=
    {| Store.sessionDataId := "session-1"; Store.workspaceId := "workspace-1";
       Store.sessionRest := VNull |} in
  let s :=
    Store.selectWorkspace (Some "workspace-1")
      (Store.addSession session
         (Store.addWorkspace workspace (Store.addRepo repo Store.initial))) in
  let s' := Store.deleteWorkspace "workspace-1" s in
  Store.sessions s' !! "session-1" = None ∧
  Store.repos s' !! "/test/repo" = Some repo ∧
  (Store.selectedWorkspaceId s', Store.selectedSessionId s') = (None, None).
Proof.
  intros repo workspace session s s'.
  destruct (deleteWorkspace_cascades "workspace-1" s
              {| Store.workspaceDataId := "workspace-1";
                 Store.repoPath := "/test/repo";
                 Store.worktreePath := "/test/repo";
                 Store.sessionIds := ["session-1"];
                 Store.workspaceRest := VNull |})
    as (_ & Hsessions & _ & Hparent & _ & _ & Hselected).
  - reflexivity.
  - intros Habsent. discriminate Habsent.
  - split_and!.
    + exact (Hsessions "session-1").
    + exact Hparent.
    + exact Hselected.
Defined.

(** X3.  Adding the same workspace twice is adding it once: the second
    [addWorkspace] changes nothing, and in particular does not list the id
    a second time in the parent repo. *)
Theorem addWorkspace_idempotent w s :
  Store.addWorkspace w (Store.addWorkspace w s) = Store.addWorkspace w s.
Proof.
  unfold Store.addWorkspace.
  destruct (Store.repos s !! Store.repoPath w) as [repo|] eqn:Hrepo.
  - destruct (decide (Store.workspaceDataId w ∈ Store.workspaceIds repo))
      as [Hin|Hnotin].
    + rewrite (bool_decide_eq_true_2 _ Hin). cbn. rewrite Hrepo.
      rewrite (bool_decide_eq_true_2 _ Hin). unfold Store.setWorkspaces. cbn.
      by rewrite insert_insert_eq.
    + rewrite (bool_decide_eq_false_2 _ Hnotin). cbn. rewrite lookup_insert_eq. cbn.
      rewrite bool_decide_eq_true_2
        by (apply elem_of_app; right; apply elem_of_cons; by left).
      unfold Store.setWorkspaces. cbn. by rewrite insert_insert_eq.
  - cbn. rewrite Hrepo. unfold Store.setWorkspaces. cbn. by rewrite insert_insert_eq.
Qed.

(** X4.  [addWorkspace] of a workspace whose parent repo is in the store
    puts the workspace under its id and touches no other workspace.  The
    parent repo lists the id afterwards: the id is appended to its list
    when it was not in it, and the list is left as it was otherwise, so
    that a list without duplicates stays one.  Nothing else of the repo
    changes, and no other repo, no session, no selection and no other
    field of the state does. *)
Theorem addWorkspace_is_listed w s repo :
  Store.repos s !! Store.repoPath w = Some repo →
  let s' := Store.addWorkspace w s in
  let id := Store.workspaceDataId w in
  Store.workspaces s' = <[id := w]> (Store.workspaces s) ∧
  Store.repos s' =
    <[Store.repoPath w :=
        {| Store.path := Store.path repo;
           Store.workspaceIds :=
             if bool_decide (id ∈ Store.workspaceIds repo)
             then Store.workspaceIds repo
             else Store.workspaceIds repo ++ [id];
           Store.repoRest := Store.repoRest repo |}]> (Store.repos s) ∧
  (∃ repo',
     Store.repos s' !! Store.repoPath w = Some repo' ∧
     id ∈ Store.workspaceIds repo' ∧
     (NoDup (Store.workspaceIds repo) → NoDup (Store.workspaceIds repo'))) ∧
  Store.sessions s' = Store.sessions s ∧
  Store.selectedRepoPath s' = Store.selectedRepoPath s ∧
  Store.selectedWorkspaceId s' = Store.selectedWorkspaceId s ∧
  Store.selectedSessionId s' = Store.selectedSessionId s ∧
  Store.messages s' = Store.messages s ∧
  Store.status s' = Store.status s ∧
  Store.processingStartTime s' = Store.processingStartTime s ∧
  Store.processingToken s' = Store.processingToken s ∧
  Store.state s' = Store.state s ∧
  Store.transport s' = Store.transport s ∧
  Store.messageBus s' = Store.messageBus s ∧
  Store.initialized s' = Store.initialized s.
Proof.
  intros Hrepo s' id. subst s' id. unfold Store.addWorkspace. rewrite Hrepo.
  destruct (decide (Store.workspaceDataId w ∈ Store.workspaceIds repo))
    as [Hin|Hnotin].
  - rewrite (bool_decide_eq_true_2 _ Hin). cbn. split_and!; try done.
    + replace {| Store.path := Store.path repo;
                 Store.workspaceIds := Store.workspaceIds repo;
                 Store.repoRest := Store.repoRest repo |}
        with repo by (by destruct repo).
      by rewrite insert_id.
    + by exists repo.
  - rewrite (bool_decide_eq_false_2 _ Hnotin). cbn. split_and!; try done.
    eexists. rewrite lookup_insert_eq. split; [done|]. cbn. split.
    + apply elem_of_app. right. apply elem_of_cons. by left.
    + intros Hnodup. apply NoDup_app. split_and!; [done| |apply NoDup_singleton].
      intros x Hx ->%list_elem_of_singleton. done.
Qed.

Lemma addWorkspace_is_listed_witness :
  let repo :=
    {| Store.path := "/test/repo"; Store.workspaceIds := [];
       Store.repoRest := VNull |} in
  let workspace :=
    {| Store.workspaceDataId := "workspace-1"; Store.repoPath := "/test/repo";
       Store.worktreePath := "/test/repo"; Store.sessionIds := [];
       Store.workspaceRest := VNull |} in
  let s' := Store.addWorkspace workspace (Store.addRepo repo Store.initial) in
  Store.workspaces s' = {[ "workspace-1" := workspace ]} ∧
  Store.repos s' =
    {[ "/test/repo" :=
         {| Store.path := "/test/repo"; Store.workspaceIds := ["workspace-1"];
            Store.repoRest := VNull |} ]}.
Proof.
  intros repo workspace s'.
  destruct (addWorkspace_is_listed workspace (Store.addRepo repo Store.initial)
              repo eq_refl) as (Hworkspaces & Hrepos & _).
  split.
  - exact Hworkspaces.
  - etrans; [exact Hrepos|]. cbn. apply insert_insert_eq.
Defined.

(** X5.  When the parent repo is in the store and does not list the id
    yet, [getWorkspacesForRepo] after [addWorkspace] is what it was before
    with the new workspace at the end. *)
Theorem addWorkspace_appends_to_selector w s repo :
  Store.repos s !! Store.repoPath w = Some repo →
  Store.workspaceDataId w ∉ Store.workspaceIds repo →
  Store.getWorkspacesForRepo (Store.addWorkspace w s) (Store.repoPath w) =
    Store.getWorkspacesForRepo s (Store.repoPath w) ++ [w].
Proof.
  intros Hrepo Hfresh. unfold Store.getWorkspacesForRepo, Store.addWorkspace.
  rewrite Hrepo, (bool_decide_eq_false_2 _ Hfresh). cbn.
  rewrite lookup_insert_eq. cbn. rewrite omap_app. cbn.
  rewrite lookup_insert_eq. cbn.
  by rewrite StoreFacts.omap_lookup_insert_fresh.
Qed.

Lemma addWorkspace_appends_to_selector_witness :
  let repo :=
    {| Store.path := "/test/repo"; Store.workspaceIds := [];
       Store.repoRest := VNull |} in
  let workspace :=
    {| Store.workspaceDataId := "workspace-1"; Store.repoPath := "/test/repo";
       Store.worktreePath := "/test/repo"; Store.sessionIds := [];
       Store.workspaceRest := VNull |} in
  Store.getWorkspacesForRepo
    (Store.addWorkspace workspace (Store.addRepo repo Store.initial)) "/test/repo" =
    [workspace].
Proof.
  intros repo workspace.
  refine (addWorkspace_appends_to_selector workspace
            (Store.addRepo repo Store.initial) repo _ _).
  - reflexivity.
  - apply not_elem_of_nil.
Defined.

(** X6.  [deleteWorkspace] undoes [addWorkspace]: for a workspace whose
    id is new to the store (no workspace under it, not listed by its
    parent repo, not selected) and whose sessions are not in the store,
    adding it and deleting it gives back the state. *)
Theorem deleteWorkspace_undoes_addWorkspace w s :
  Store.workspaces s !! Store.workspaceDataId w = None →
  (∀ repo, Store.repos s !! Store.repoPath w = Some repo →
           Store.workspaceDataId w ∉ Store.workspaceIds repo) →
  (∀ sid, sid ∈ Store.sessionIds w → Store.sessions s !! sid = None) →
  Store.selectedWorkspaceId s ≠ Some (Store.workspaceDataId w) →
  Store.deleteWorkspace (Store.workspaceDataId w) (Store.addWorkspace w s) = s.
Proof.
  intros Hnew Hunlisted Hsessions Hunselected.
  assert (Store.deleteSessionsOf w (Store.sessions s) = Store.sessions s) as Hsame.
  { apply map_eq. intros sid. rewrite StoreFacts.deleteSessionsOf_lookup.
    case_bool_decide as Hin; [|done]. symmetry. by apply Hsessions. }
  unfold Store.addWorkspace.
  destruct (Store.repos s !! Store.repoPath w) as [repo|] eqn:Hrepo.
  - rewrite bool_decide_eq_false_2 by (by apply Hunlisted).
    unfold Store.deleteWorkspace. cbn. rewrite !lookup_insert_eq. cbn.
    rewrite Hsame, (delete_insert_id _ _ _ Hnew), insert_insert_eq.
    rewrite filter_app, (StoreFacts.filter_ne_fresh _ _ (Hunlisted _ eq_refl)).
    rewrite filter_cons_False, filter_nil, app_nil_r by (intros Hne; by apply Hne).
    rewrite (bool_decide_eq_false_2 _ Hunselected).
    replace {| Store.path := Store.path repo;
               Store.workspaceIds := Store.workspaceIds repo;
               Store.repoRest := Store.repoRest repo |} with repo by (by destruct repo).
    rewrite (insert_id _ _ _ Hrepo). by destruct s.
  - unfold Store.deleteWorkspace. cbn. rewrite lookup_insert_eq, Hrepo. cbn.
    rewrite Hsame, (delete_insert_id _ _ _ Hnew).
    rewrite (bool_decide_eq_false_2 _ Hunselected). by destruct s.
Qed.

Lemma deleteWorkspace_undoes_addWorkspace_witness :
  let repo :=
    {| Store.path := "/test/repo"; Store.workspaceIds := [];
       Store.repoRest := VNull |} in
  let workspace :=
    {| Store.workspaceDataId := "workspace-1"; Store.repoPath := "/test/repo";
       Store.worktreePath := "/test/repo"; Store.sessionIds := ["session-1"];
       Store.workspaceRest := VNull |} in
  let s := Store.addRepo repo Store.initial in
  Store.deleteWorkspace "workspace-1" (Store.addWorkspace workspace s) = s.
Proof.
  intros repo workspace s.
  refine (deleteWorkspace_undoes_addWorkspace workspace s _ _ _ _).
  - reflexivity.
  - intros repo' Hrepo'. cbn in Hrepo'. rewrite lookup_insert_eq in Hrepo'.
    injection Hrepo' as <-. apply not_elem_of_nil.
  - intros sid _. reflexivity.
  - discriminate.
Defined.



(** X8.  [selectWorkspace(id)] selects a workspace that is in the store,
    and no session, when the workspace belongs to the selected repo or no
    repo with a non-empty path is selected; for a workspace of another
    repo, and for an id that is neither in the store nor the name of a
    member of [Object.prototype], the state stays as it is.  An id that
    is not in the store but names such a member passes the check for
    existence: it is selected when no repo with a non-empty path is
    selected, and refused otherwise.  Whenever the state changes, only
    the workspace and session selections do. *)
Theorem selectWorkspace_validates id s :
  let s' := Store.selectWorkspace (Some id) s in
  let selects :=
    Store.selectedWorkspaceId s' = Some id ∧ Store.selectedSessionId s' = None in
  (∀ w, Store.workspaces s !! id = Some w →
        (∀ p, Store.selectedRepoPath s = Some p → p ≠ "" → Store.repoPath w = p) →
        selects) ∧
  (∀ w p, Store.workspaces s !! id = Some w →
          Store.selectedRepoPath s = Some p → p ≠ "" → Store.repoPath w ≠ p →
          s' = s) ∧
  (Store.workspaces s !! id = None → Store.inherited id = false → s' = s) ∧
  (Store.workspaces s !! id = None → Store.inherited id = true →
   if Store.truthyKey (Store.selectedRepoPath s) then s' = s else selects) ∧
  (s' ≠ s →
   selects ∧
   ((∃ w, Store.workspaces s !! id = Some w ∧
          (∀ p, Store.selectedRepoPath s = Some p → p ≠ "" → Store.repoPath w = p)) ∨
    (Store.workspaces s !! id = None ∧ Store.inherited id = true ∧
     Store.truthyKey (Store.selectedRepoPath s) = false))) ∧
  Store.selectedRepoPath s' = Store.selectedRepoPath s ∧
  Store.repos s' = Store.repos s ∧
  Store.workspaces s' = Store.workspaces s ∧
  Store.sessions s' = Store.sessions s ∧
  Store.messages s' = Store.messages s ∧
  Store.status s' = Store.status s ∧
  Store.processingStartTime s' = Store.processingStartTime s ∧
  Store.processingToken s' = Store.processingToken s ∧
  Store.state s' = Store.state s ∧
  Store.transport s' = Store.transport s ∧
  Store.messageBus s' = Store.messageBus s ∧
  Store.initialized s' = Store.initialized s.
Proof.
  intros s' selects. subst s' selects.
  unfold Store.selectWorkspace, Store.property.
  assert (∀ p, Store.truthyKey (Some p) = true ↔ p ≠ "") as Htruthy.
  { intros p. cbn. rewrite negb_true_iff. split.
    - intros Hp ->. by rewrite String.eqb_refl in Hp.
    - intros Hp. by apply String.eqb_neq. }
  destruct (Store.workspaces s !! id) as [w|] eqn:Hw;
    [destruct (Store.selectedRepoPath s) as [p|] eqn:Hp; cbn [Store.truthyKey];
     [destruct (negb (String.eqb p "")) eqn:Hnonempty; cbn [andb];
      [case_bool_decide as Hsame; cbn [negb]|]|]
    |destruct (Store.inherited id) eqn:Hinherited;
     [destruct (Store.truthyKey (Store.selectedRepoPath s)) eqn:Hrepo|]].
  all: split_and!; try done.
  all: try (intros; simplify_eq; done).
  all: try (intros _; split; [done|]; right; done).
  all: try (intros _; split; [done|]; left; eexists; split; [done|];
            intros; simplify_eq; done).
  all: try (intros w0 Heq Hbelongs; simplify_eq; destruct Hsame; f_equal;
            apply Hbelongs; [done|by apply Htruthy]).
  all: try (intros w0 p0 Heq Heq' Hne Hother; simplify_eq;
            apply Htruthy in Hne; cbn in Hne; congruence).
  all: try (intros _; split; [done|]; left; eexists; split; [done|];
            intros p0 Heq Hne; simplify_eq;
            apply Htruthy in Hne; cbn in Hne; congruence).
Qed.

(** X9.  After [selectRepo(path)] of a repo that is in the store the
    path is selected and no workspace or session is; [getSelectedRepo]
    then returns the repo, except for the empty path, which it reads as no
    selection. *)
Theorem selectRepo_then_getSelectedRepo p s repo :
  Store.repos s !! p = Some repo →
  let s' := Store.selectRepo (Some p) s in
  Store.selectedRepoPath s' = Some p ∧
  Store.getSelectedRepo s' = (if String.eqb p "" then None else Some repo) ∧
  Store.getSelectedWorkspace s' = None ∧
  Store.getSelectedSession s' = None.
Proof.
  intros Hrepo s'. subst s'. unfold Store.selectRepo. rewrite Hrepo.
  unfold Store.getSelectedRepo. cbn. split_and!; try done.
  destruct (String.eqb p ""); cbn; done.
Qed.

Lemma selectRepo_then_getSelectedRepo_witness :
  let repo :=
    {| Store.path := "/test/repo"; Store.workspaceIds := [];
       Store.repoRest := VNull |} in
  Store.getSelectedRepo
    (Store.selectRepo (Some "/test/repo") (Store.addRepo repo Store.initial)) =
    Some repo.
Proof.
  intros repo.
  refine (proj1 (proj2 (selectRepo_then_getSelectedRepo "/test/repo"
                          (Store.addRepo repo Store.initial) repo _))).
  reflexivity.
Defined.

(** ** The store's actions over the message bus *)

(** X10.  With a selected workspace that is in the store, [sendMessage]
    selects a fresh session id when none is selected and then, if the
    store is connected, issues one [session.send] request with the
    message, the session id and the workspace's worktree path.  Its status
    is ['processing'] only as long as that request is pending: when the
    request ends, well or not, or cannot be made because the store is not
    connected, the status is ['idle'] again and a failure is passed on. *)
Theorem sendMessage_ends_idle newSessionId now answer message env wid w :
  Store.selectedWorkspaceId (StoreActions.store env) = Some wid →
  wid ≠ "" →
  Store.workspaces (StoreActions.store env) !! wid = Some w →
  let r := StoreActions.sendMessage newSessionId now answer message env in
  let sessionId :=
    if Store.truthyKey (Store.selectedSessionId (StoreActions.store env))
    then default "" (Store.selectedSessionId (StoreActions.store env))
    else newSessionId in
  Store.selectedSessionId (StoreActions.store r.2) = Some sessionId ∧
  (if StoreActions.notConnected (StoreActions.store env) then
     r.1 = Abrupt (mkError "Error"
             ("Cannot make request when not connected. Current state: " +:+
              StoreActions.connectionName (Store.state (StoreActions.store env)))) ∧
     StoreActions.busRequests r.2 = StoreActions.busRequests env ∧
     Store.status (StoreActions.store r.2) = Store.Idle
   else
     StoreActions.busRequests r.2 =
       StoreActions.busRequests env ++
         [("session.send",
           VObj [("message", VStr message); ("sessionId", VStr sessionId);
                 ("cwd", VStr (Store.worktreePath w)); ("planMode", VBool false)])] ∧
     match answer with
     | Returns _ | Resolves _ =>
         r.1 = Normal tt ∧ Store.status (StoreActions.store r.2) = Store.Idle
     | Throws e | Rejects e =>
         r.1 = Abrupt e ∧ Store.status (StoreActions.store r.2) = Store.Idle
     | NeverSettles =>
         r.1 = Suspended ∧
         Store.status (StoreActions.store r.2) = Store.Processing ∧
         Store.processingStartTime (StoreActions.store r.2) = now
     end) ∧
  (Store.status (StoreActions.store r.2) = Store.Idle →
   Store.processingStartTime (StoreActions.store r.2) = 0%Z ∧
   Store.processingToken (StoreActions.store r.2) = 0%Z).
Proof.
  intros Hselected Hne Hw r sessionId. subst r sessionId.
  unfold StoreActions.sendMessage. rewrite Hselected.
  rewrite (proj2 (String.eqb_neq wid "")) by done.
  unfold_monad.
  unfold StoreActions.set, modify, StoreActions.tryFinally, StoreActions.request,
    await, StoreActions.notConnected, Store.truthyKey, Store.property.
  destruct env as [s requests subscriptions]. cbn [StoreActions.store] in *.
  destruct s as [connection tr bus init rs ws ss ms st start token srp swi ssi].
  cbn [Store.selectedSessionId Store.workspaces Store.selectedWorkspaceId] in *.
  rewrite Hw.
  destruct ssi as [sid|]; [destruct (String.eqb sid "")|];
    destruct connection, bus as [b|], answer; cbn -[mkError String.append];
    split_and!; done.
Qed.

Lemma sendMessage_ends_idle_witness :
  let workspace :=
    {| Store.workspaceDataId := "workspace-1"; Store.repoPath := "/test/repo";
       Store.worktreePath := "/test/tree"; Store.sessionIds := [];
       Store.workspaceRest := VNull |} in
  let s :=
    Store.selectWorkspace (Some "workspace-1")
      (Store.addWorkspace workspace Store.initial) in
  let env :=
    {| StoreActions.store := s; StoreActions.busRequests := [];
       StoreActions.busSubscriptions := [] |} in
  let r := StoreActions.sendMessage "session-9" 1700 (Resolves VNull) "hi" env in
  r.1 = Abrupt (mkError "Error"
          "Cannot make request when not connected. Current state: disconnected") ∧
  Store.selectedSessionId (StoreActions.store r.2) = Some "session-9" ∧
  Store.status (StoreActions.store r.2) = Store.Idle.
Proof.
  intros workspace s env r.
  destruct (sendMessage_ends_idle "session-9" 1700 (Resolves VNull) "hi" env
              "workspace-1" workspace) as (Hsession & Hrequest & _).
  - reflexivity.
  - discriminate.
  - reflexivity.
  - cbn in Hrequest. destruct Hrequest as (Hcompletion & _ & Hstatus).
    split_and!; [exact Hcompletion|exact Hsession|exact Hstatus].
Defined.

(** X11.  [sendMessage] rejects when no workspace is selected and
    leaves everything as it is.  When the selected id is neither in the
    store nor the name of a member of [Object.prototype] it rejects as
    well, without a request and without a change of status, but a session
    id it minted because none was selected stays selected.  A selected id
    that is not in the store but names such a member passes the check:
    the call goes on, and the request it issues when the store is
    connected carries [undefined] for the working directory. *)
Theorem sendMessage_refuses newSessionId now answer message env :
  let r := StoreActions.sendMessage newSessionId now answer message env in
  let s := StoreActions.store env in
  let sessionId :=
    if Store.truthyKey (Store.selectedSessionId s)
    then default "" (Store.selectedSessionId s) else newSessionId in
  (Store.truthyKey (Store.selectedWorkspaceId s) = false →
   r = (Abrupt (mkError "Error" "No workspace selected to create session"), env)) ∧
  (∀ wid,
     Store.selectedWorkspaceId s = Some wid → wid ≠ "" →
     Store.workspaces s !! wid = None → Store.inherited wid = false →
     r.1 = Abrupt (mkError "Error" ("Workspace " +:+ wid +:+ " not found")) ∧
     StoreActions.busRequests r.2 = StoreActions.busRequests env ∧
     Store.status (StoreActions.store r.2) = Store.status s ∧
     Store.selectedSessionId (StoreActions.store r.2) = Some sessionId) ∧
  (∀ wid,
     Store.selectedWorkspaceId s = Some wid → wid ≠ "" →
     Store.workspaces s !! wid = None → Store.inherited wid = true →
     Store.selectedSessionId (StoreActions.store r.2) = Some sessionId ∧
     if StoreActions.notConnected s then
       r.1 = Abrupt (mkError "Error"
               ("Cannot make request when not connected. Current state: " +:+
                StoreActions.connectionName (Store.state s))) ∧
       StoreActions.busRequests r.2 = StoreActions.busRequests env
     else
       StoreActions.busRequests r.2 =
         StoreActions.busRequests env ++
           [("session.send",
             VObj [("message", VStr message); ("sessionId", VStr sessionId);
                   ("cwd", VUndefined); ("planMode", VBool false)])]).
Proof.
  intros r s sessionId. subst r s sessionId. unfold StoreActions.sendMessage.
  split_and!.
  - unfold Store.truthyKey.
    destruct (Store.selectedWorkspaceId (StoreActions.store env)) as [wid|]; [|done].
    by intros ->%negb_false_iff.
  - intros wid -> Hne Hmissing Hplain.
    rewrite (proj2 (String.eqb_neq wid "")) by done.
    unfold_monad. unfold StoreActions.set, modify, Store.property, Store.truthyKey.
    rewrite Hmissing, Hplain.
    destruct (Store.selectedSessionId (StoreActions.store env)) as [sid|] eqn:Hsid;
      [destruct (String.eqb sid "")|]; cbn -[mkError String.append];
      split_and!; done.
  - intros wid Hselected Hne Hmissing Hinherited.
    rewrite Hselected, (proj2 (String.eqb_neq wid "")) by done.
    unfold_monad.
    unfold StoreActions.set, modify, StoreActions.tryFinally, StoreActions.request,
      await, StoreActions.notConnected, Store.truthyKey, Store.property.
    destruct env as [s requests subscriptions]. cbn [StoreActions.store] in *.
    destruct s as [connection tr bus init rs ws ss ms st start token srp swi ssi].
    cbn [Store.selectedSessionId Store.workspaces Store.selectedWorkspaceId] in *.
    rewrite Hmissing, Hinherited.
    destruct ssi as [sid|]; [destruct (String.eqb sid "")|];
      destruct connection, bus as [b|], answer; cbn -[mkError String.append];
      split_and!; done.
Qed.

(** X12.  [initialize] subscribes its three handlers, in the order
    [message], [chunk], [streamResult], only when the store is connected
    and was not initialized; otherwise it subscribes nothing, and when the
    store is not connected it rejects and leaves [initialized] unset, so
    that a later call can subscribe.  Calling it again right away changes
    nothing. *)
Theorem initialize_subscribes_once env :
  let r := StoreActions.initialize env in
  let s := StoreActions.store env in
  exec StoreActions.initialize r.2 = r.2 ∧
  StoreActions.busRequests r.2 = StoreActions.busRequests env ∧
  (if Store.initialized s then r = (Normal tt, env)
   else if StoreActions.notConnected s then
     r = (Abrupt (mkError "Error"
            ("Cannot subscribe to events when not connected. Current state: " +:+
             StoreActions.connectionName (Store.state s))), env)
   else
     r.1 = Normal tt ∧
     Store.initialized (StoreActions.store r.2) = true ∧
     StoreActions.busSubscriptions r.2 =
       StoreActions.busSubscriptions env ++
         [("message", StoreActions.OnMessage); ("chunk", StoreActions.OnChunk);
          ("streamResult", StoreActions.OnStreamResult)]).
Proof.
  intros r s. subst r s. unfold exec, StoreActions.initialize.
  unfold_monad.
  unfold StoreActions.onEvent, StoreActions.set, modify, StoreActions.notConnected.
  destruct env as [s requests subscriptions].
  destruct s as [connection tr bus init rs ws ss ms st start token srp swi ssi].
  destruct init, connection, bus as [b|]; cbn -[mkError String.append];
    rewrite <- ?app_assoc; split_and!; done.
Qed.

(** ** The store of the chat input *)

(** X13.  [togglePlanMode] goes round the three plan modes: three
    toggles give back the state, one or two never do, and no field but
    the plan mode changes. *)
Theorem togglePlanMode_cycles s :
  let s' := InputStore.togglePlanMode s in
  InputStore.togglePlanMode (InputStore.togglePlanMode s') = s ∧
  InputStore.planMode s' ≠ InputStore.planMode s ∧
  InputStore.planMode (InputStore.togglePlanMode s') ≠ InputStore.planMode s ∧
  InputStore.value s' = InputStore.value s ∧
  InputStore.cursorPosition s' = InputStore.cursorPosition s ∧
  InputStore.historyIndex s' = InputStore.historyIndex s ∧
  InputStore.draftInput s' = InputStore.draftInput s ∧
  InputStore.history s' = InputStore.history s ∧
  InputStore.queuedMessages s' = InputStore.queuedMessages s ∧
  InputStore.thinking s' = InputStore.thinking s ∧
  InputStore.pastedTextMap s' = InputStore.pastedTextMap s ∧
  InputStore.pastedImageMap s' = InputStore.pastedImageMap s.
Proof. destruct s as [? ? ? ? ? ? [] ? ? ?]; cbn; split_and!; done. Qed.

(** X14.  [toggleThinking] goes round off, low, medium and high: four
    toggles give back the state, fewer never do, and no field but the
    thinking level changes. *)
Theorem toggleThinking_cycles s :
  let t := InputStore.toggleThinking in
  t (t (t (t s))) = s ∧
  InputStore.thinking (t s) ≠ InputStore.thinking s ∧
  InputStore.thinking (t (t s)) ≠ InputStore.thinking s ∧
  InputStore.thinking (t (t (t s))) ≠ InputStore.thinking s ∧
  InputStore.value (t s) = InputStore.value s ∧
  InputStore.cursorPosition (t s) = InputStore.cursorPosition s ∧
  InputStore.historyIndex (t s) = InputStore.historyIndex s ∧
  InputStore.draftInput (t s) = InputStore.draftInput s ∧
  InputStore.history (t s) = InputStore.history s ∧
  InputStore.queuedMessages (t s) = InputStore.queuedMessages s ∧
  InputStore.planMode (t s) = InputStore.planMode s ∧
  InputStore.pastedTextMap (t s) = InputStore.pastedTextMap s ∧
  InputStore.pastedImageMap (t s) = InputStore.pastedImageMap s.
Proof. destruct s as [? ? ? ? ? ? ? [[]|] ? ?]; cbn; split_and!; done. Qed.

(** ** More on the main process *)

Module IpcFacts.
Import Main.

Lemma address_cons c namespace method :
  address (String c namespace) method = String c (address namespace method).
Proof. done. Qed.

Lemma forEach_fmap {S A B} (f : A → B) (body : B → M S unit) (xs : list A) :
  ∀ st, forEach (f <$> xs) body st = forEach xs (λ x, body (f x)) st.
Proof.
  induction xs as [|x xs IH]; intros st; [done|].
  cbn [fmap list_fmap forEach]. unfold bind.
  destruct (body (f x) st) as [[[]| |] st1]; [|done..]. apply IH.
Qed.

Lemma forEach_ext {S A} (body1 body2 : A → M S unit) (xs : list A) :
  (∀ x st, body1 x st = body2 x st) →
  ∀ st, forEach xs body1 st = forEach xs body2 st.
Proof.
  intros Hext. induction xs as [|x xs IH]; intros st; [done|].
  cbn [forEach]. unfold bind. rewrite Hext.
  destruct (body2 x st) as [[[]| |] st1]; [|done..]. apply IH.
Qed.

(** The two nested loops of [registerMainHandlers] are one loop over the
    channels of the table. *)
Lemma registerMainHandlers_flat mainHandlers : ∀ st,
  registerMainHandlers mainHandlers st =
    forEach (Ipc.entriesOf mainHandlers) (λ '(channel, h), ipcMain_handle channel h) st.
Proof.
  induction mainHandlers as [|[namespace methods] rest IH]; intros st; [done|].
  unfold Ipc.entriesOf. cbn [mbind list_bind]. rewrite forEach_app.
  unfold registerMainHandlers. cbn [forEach]. unfold bind.
  rewrite forEach_fmap.
  rewrite (forEach_ext
             (λ '(method, entry),
                let channelName := namespace +:+ "." +:+ method in
                ipcMain_handle channelName (handler entry))
             (λ x : string * MainHandlerEntry,
                let '(channel, h) :=
                  (let '(method, entry) := x in
                   (address namespace method, handler entry)) in
                ipcMain_handle channel h))
    by (by intros [method entry] st0).
  destruct (forEach methods _ st) as [[[]| |] st1]; [|done..]. apply IH.
Qed.

(** A loop of [ipcMain.handle] completes exactly when its channels are
    pairwise distinct and free; it then binds them all, and otherwise
    throws on one of them. *)
Lemma forEach_handle_spec (entries : list (string * MainHandler)) : ∀ st,
  let r := forEach entries (λ '(channel, h), ipcMain_handle channel h) st in
  (r.1 = Normal tt ↔
   NoDup entries.*1 ∧ ∀ channel, channel ∈ entries.*1 →
                                  invokeHandlers st !! channel = None) ∧
  (r.1 = Normal tt →
   dom (invokeHandlers r.2) = dom (invokeHandlers st) ∪ list_to_set entries.*1 ∧
   size (invokeHandlers r.2) = size (invokeHandlers st) + length entries) ∧
  (r.1 ≠ Normal tt →
   ∃ channel, channel ∈ entries.*1 ∧
     r.1 = Abrupt (mkError "Error"
             ("Attempted to register a second handler for '" +:+ channel +:+ "'"))).
Proof.
  induction entries as [|[channel h] entries IH]; intros st r; subst r.
  - cbn. split_and!; try done.
    + split; [|done]. intros _. split; [apply NoDup_nil_2|].
      intros c Hc. by apply elem_of_nil in Hc.
    + intros _. split; [|lia]. by rewrite (right_id_L ∅ (∪)).
  - cbn [forEach fmap list_fmap fst]. unfold bind. cbv beta iota.
    destruct (invokeHandlers st !! channel) as [h0|] eqn:Hbound.
    + replace (ipcMain_handle channel h st)
        with (Abrupt (A:=unit) (mkError "Error"
                ("Attempted to register a second handler for '" +:+ channel +:+ "'")),
              st)
        by (unfold ipcMain_handle; by rewrite Hbound).
      cbn -[mkError String.append]. split_and!.
      * split; [done|]. intros [_ Hfree].
        rewrite Hfree in Hbound; [done|]. apply elem_of_cons. by left.
      * done.
      * intros _. exists channel. split; [apply elem_of_cons; by left|done].
    + set (st1 := setInvokeHandlers <[channel:=h]> st).
      replace (ipcMain_handle channel h st) with (Normal tt, st1)
        by (unfold ipcMain_handle; by rewrite Hbound).
      destruct (IH st1) as (Hiff & Hdom & Hthrow).
      assert (∀ c, invokeHandlers st1 !! c = None ↔
                   c ≠ channel ∧ invokeHandlers st !! c = None) as Hlook.
      { intros c. subst st1. cbn. rewrite lookup_insert_None.
        split; intros [??]; split; congruence. }
      split_and!.
      * rewrite Hiff. rewrite NoDup_cons. split.
        -- intros [Hnodup Hfree]. split_and!; [|done|].
           ++ intros Hin. apply Hfree, Hlook in Hin. by destruct Hin.
           ++ intros c [->|Hin]%elem_of_cons; [done|]. by apply Hlook, Hfree.
        -- intros [[Hnotin Hnodup] Hfree]. split; [done|].
           intros c Hin. apply Hlook. split.
           ++ by intros ->.
           ++ apply Hfree, elem_of_cons. by right.
      * intros Hok. destruct (Hdom Hok) as [-> ->]. subst st1. cbn. split.
        -- rewrite dom_insert_L. cbn [list_to_set].
           rewrite (assoc_L (∪)). f_equal. apply (comm_L (∪)).
        -- rewrite map_size_insert_None by done. lia.
      * intros Hfail. destruct (Hthrow Hfail) as (c & Hin & Hc).
        exists c. split; [apply elem_of_cons; by right|done].
Qed.

(** A loop of [ipcMain.handle] that does not complete has bound the
    entries before the one it throws on, which was bound already, and is
    in the state in which the loop over those entries ends. *)
Lemma forEach_handle_fails (entries : list (string * MainHandler)) : ∀ st,
  let r := forEach entries (λ '(channel, h), ipcMain_handle channel h) st in
  r.1 ≠ Normal tt →
  ∃ before channel h after,
    entries = before ++ (channel, h) :: after ∧
    forEach before (λ '(channel, h), ipcMain_handle channel h) st = (Normal tt, r.2) ∧
    r.1 = Abrupt (mkError "Error"
            ("Attempted to register a second handler for '" +:+ channel +:+ "'")) ∧
    is_Some (invokeHandlers r.2 !! channel) ∧
    (∀ c h', (c, h') ∈ before → invokeHandlers r.2 !! c = Some h').
Proof.
  induction entries as [|[channel h] entries IH]; intros st r; subst r; [done|].
  cbn [forEach]. unfold bind. cbv beta iota.
  destruct (invokeHandlers st !! channel) as [h0|] eqn:Hbound.
  - replace (ipcMain_handle channel h st)
      with (Abrupt (A:=unit) (mkError "Error"
              ("Attempted to register a second handler for '" +:+ channel +:+ "'")),
            st)
      by (unfold ipcMain_handle; by rewrite Hbound).
    intros _. exists [], channel, h, entries. cbn -[mkError String.append].
    split_and!; [done|done|done|by eexists|].
    intros c h' Hin. by apply elem_of_nil in Hin.
  - set (st1 := setInvokeHandlers <[channel:=h]> st).
    replace (ipcMain_handle channel h st) with (Normal tt, st1)
      by (unfold ipcMain_handle; by rewrite Hbound).
    intros Hfail.
    destruct (IH st1 Hfail) as (before & c0 & h0 & after & -> & Hbefore & Hthrow &
                                Hc0 & Hkept).
    exists ((channel, h) :: before), c0, h0, after. split_and!; [done| |done|done|].
    + cbn [forEach]. unfold bind. cbv beta iota.
      replace (ipcMain_handle channel h st) with (Normal tt, st1)
        by (unfold ipcMain_handle; by rewrite Hbound).
      done.
    + intros c h' [[= -> ->]|Hin]%elem_of_cons; [|by apply Hkept].
      pose proof (forEach_grows before (λ '(channel, h), ipcMain_handle channel h))
        as Hgrows.
      destruct (Hgrows (λ '(c1, h1) st0, ipcMain_handle_grows c1 h1 st0) st1)
        as [Hsub _].
      unfold exec in Hsub. rewrite Hbefore in Hsub. cbn [snd] in Hsub.
      eapply lookup_weaken; [|exact Hsub]. subst st1. cbn.
      by rewrite lookup_insert_eq.
Qed.

End IpcFacts.

Import MainFacts IpcFacts.

(** X15.  [registerMainHandlers] completes exactly when the channels
    [namespace.method] of its table are pairwise distinct and none of them
    has a handler yet.  It then binds exactly those channels on top of the
    ones bound before.  Otherwise it throws Electron's error for a channel
    of the table that has a handler by then, and nothing is rolled back:
    every entry of the table before that one is bound to its procedure,
    these channels and the ones bound before the call are all there is in
    the registry, and nothing but the registry has changed. *)
Theorem registerMainHandlers_all_or_error mainHandlers st :
  let r := Main.registerMainHandlers mainHandlers st in
  (r.1 = Normal tt ↔
   NoDup (Ipc.channelsOf mainHandlers) ∧
   ∀ channel, channel ∈ Ipc.channelsOf mainHandlers →
              Main.invokeHandlers st !! channel = None) ∧
  (r.1 = Normal tt →
   dom (Main.invokeHandlers r.2) =
     dom (Main.invokeHandlers st) ∪ list_to_set (Ipc.channelsOf mainHandlers)) ∧
  (r.1 ≠ Normal tt →
   ∃ before channel h after,
     Ipc.entriesOf mainHandlers = before ++ (channel, h) :: after ∧
     r.1 = Abrupt (mkError "Error"
             ("Attempted to register a second handler for '" +:+ channel +:+ "'")) ∧
     is_Some (Main.invokeHandlers r.2 !! channel) ∧
     (∀ c h', (c, h') ∈ before → Main.invokeHandlers r.2 !! c = Some h') ∧
     dom (Main.invokeHandlers r.2) =
       dom (Main.invokeHandlers st) ∪ list_to_set before.*1) ∧
  Main.registryGrows st r.2.
Proof.
  intros r. subst r. split_and!.
  - rewrite registerMainHandlers_flat.
    apply (forEach_handle_spec (Ipc.entriesOf mainHandlers) st).
  - rewrite registerMainHandlers_flat. intros Hok.
    by destruct (forEach_handle_spec (Ipc.entriesOf mainHandlers) st)
      as (_ & [? _]%(λ H, H Hok) & _).
  - rewrite registerMainHandlers_flat. intros Hfail.
    destruct (forEach_handle_fails (Ipc.entriesOf mainHandlers) st Hfail)
      as (before & channel & h & after & Hsplit & Hbefore & Hthrow & Hbound & Hkept).
    exists before, channel, h, after. split_and!; [done..|].
    destruct (forEach_handle_spec before st) as (_ & Hdom & _).
    rewrite Hbefore in Hdom. by destruct (Hdom eq_refl).
  - apply registerMainHandlers_grows.
Qed.

(** X16.  A table is registered once: after [registerMainHandlers] has
    registered a table with at least one procedure, registering the same
    table again, then or at any later time, throws for its first channel
    and changes nothing. *)
Theorem registerMainHandlers_twice_throws randomUUID mainHandlers st st' later :
  Main.registerMainHandlers mainHandlers st = (Normal tt, st') →
  Ipc.channelsOf mainHandlers ≠ [] →
  let now := Main.run randomUUID later st' in
  ∃ channel,
    head (Ipc.channelsOf mainHandlers) = Some channel ∧
    Main.registerMainHandlers mainHandlers now =
      (Abrupt (mkError "Error"
         ("Attempted to register a second handler for '" +:+ channel +:+ "'")),
       now).
Proof.
  intros Hreg Hne now. unfold Ipc.channelsOf in *.
  destruct (forEach_handle_spec (Ipc.entriesOf mainHandlers) st) as (_ & Hdom & _).
  rewrite <- registerMainHandlers_flat, Hreg in Hdom.
  destruct (Hdom eq_refl) as [Hd _]. cbn [snd] in Hd.
  rewrite registerMainHandlers_flat.
  destruct (Ipc.entriesOf mainHandlers) as [|[channel h] entries]; [done|].
  exists channel. split; [done|].
  assert (is_Some (Main.invokeHandlers now !! channel)) as [h0 Hbound].
  { assert (is_Some (Main.invokeHandlers st' !! channel)) as [h0 Hh0].
    { apply elem_of_dom. rewrite Hd. apply elem_of_union_r.
      cbn [fmap list_fmap fst list_to_set]. apply elem_of_union_l.
      by apply elem_of_singleton. }
    exists h0. eapply lookup_weaken; [exact Hh0|].
    apply (invokeHandlers_run randomUUID later). }
  cbn [forEach]. unfold bind, Main.ipcMain_handle. by rewrite Hbound.
Qed.

Lemma registerMainHandlers_twice_throws_witness :
  let entry := Main.createMainHandler (λ _, Resolves VNull) in
  let mainHandlers := [("neovateServer", [("create", entry)])] in
  let st' := exec (Main.registerMainHandlers mainHandlers) Main.initial in
  ∃ channel,
    head (Ipc.channelsOf mainHandlers) = Some channel ∧
    Main.registerMainHandlers mainHandlers st' =
      (Abrupt (mkError "Error"
         ("Attempted to register a second handler for '" +:+ channel +:+ "'")),
       st').
Proof.
  intros entry mainHandlers st'.
  apply (registerMainHandlers_twice_throws System.countingUUID mainHandlers
           Main.initial st' []).
  - reflexivity.
  - discriminate.
Defined.

(** X17.  Procedures with different names get different channels when no
    namespace contains a dot: [namespace.method] then determines the
    namespace and the method. *)
Theorem distinct_procedures_get_distinct_channels namespace method namespace' method' :
  Ipc.hasDot namespace = false →
  Ipc.hasDot namespace' = false →
  (namespace, method) ≠ (namespace', method') →
  address namespace method ≠ address namespace' method'.
Proof.
  intros Hns Hns' Hne Heq. apply Hne. clear Hne.
  revert namespace' Hns' Heq.
  induction namespace as [|c namespace IH]; intros [|c' namespace'] Hns' Heq.
  - injection Heq as Hm. change (method = method') in Hm. by subst.
  - injection Heq as Hc _. subst c'. by cbn in Hns'.
  - injection Heq as Hc _. subst c. by cbn in Hns.
  - rewrite (address_cons c), (address_cons c') in Heq. injection Heq as -> Heq.
    cbn in Hns, Hns'. apply orb_false_iff in Hns as [_ Hns].
    apply orb_false_iff in Hns' as [_ Hns'].
    by injection (IH Hns namespace' Hns' Heq) as -> ->.
Qed.

Lemma distinct_procedures_get_distinct_channels_witness :
  Ipc.hasDot "session" = false ∧
  address "session" "send" ≠ address "session" "cancel".
Proof.
  split; [reflexivity|].
  apply (distinct_procedures_get_distinct_channels "session" "send" "session" "cancel").
  - reflexivity.
  - reflexivity.
  - discriminate.
Defined.

(** X18.  From the renderer to the procedure: the call
    [ipcMainCaller.namespace.method(input)] issues one request, and when
    that request reaches a main process that has registered a table with
    that entry, it invokes the entry's procedure, once and nothing else,
    with [input] as the input and the calling renderer as the sender, and
    is answered with what the procedure returns. *)
Theorem main_caller_reaches_handler
    randomUUID mainHandlers st st' namespace methods method entry later from input w :
  Main.registerMainHandlers mainHandlers st = (Normal tt, st') →
  (namespace, methods) ∈ mainHandlers →
  (method, entry) ∈ methods →
  let now := Main.run randomUUID later st' in
  let args :=
    {| Main.context := {| Main.sender := from |}; Main.input := input |} in
  let issued := Renderer.ipcMainCaller namespace method input w in
  ∃ request,
    issued.1 = Normal (length (Renderer.requests w)) ∧
    Renderer.requests issued.2 = Renderer.requests w ++ [request] ∧
    Renderer.sent issued.2 = Renderer.sent w ∧
    System.requestToMain from now request =
      (Normal (Main.handler entry args),
       Main.setCalls (Main.calls now ++ [(Main.handler entry, args)]) now).
Proof.
  intros Hreg Hns Hm now args issued.
  exists (address namespace method, [input]). split_and!; [done..|].
  pose proof (registerMainHandlers_bound _ _ _ _ _ _ _ Hreg Hns Hm) as Hbound.
  eapply lookup_weaken in Hbound; [|apply (invokeHandlers_run randomUUID later)].
  unfold System.requestToMain, Main.dispatch. cbn [fst snd nth].
  fold now in Hbound. by rewrite Hbound.
Qed.

Lemma main_caller_reaches_handler_witness :
  let create : Main.MainHandler :=
    λ _, Resolves (VObj [("url", VStr "http://localhost:1024")]) in
  let mainHandlers := [("neovateServer", [("create", Main.createMainHandler create)])] in
  let st' := exec (Main.registerMainHandlers mainHandlers) Main.initial in
  let from := {| Main.wcId := 1 |} in
  let args :=
    {| Main.context := {| Main.sender := from |}; Main.input := VUndefined |} in
  let issued :=
    Renderer.ipcMainCaller "neovateServer" "create" VUndefined Renderer.initialWire in
  ∃ request,
    issued.1 = Normal 0 ∧
    Renderer.requests issued.2 = [request] ∧
    Renderer.sent issued.2 = [] ∧
    System.requestToMain from st' request =
      (Normal (Resolves (VObj [("url", VStr "http://localhost:1024")])),
       Main.setCalls [(create, args)] st').
Proof.
  intros create mainHandlers st' from args issued.
  apply (main_caller_reaches_handler System.countingUUID mainHandlers Main.initial st'
           "neovateServer" [("create", Main.createMainHandler create)] "create"
           (Main.createMainHandler create) [] from VUndefined Renderer.initialWire).
  - reflexivity.
  - apply elem_of_cons. by left.
  - apply elem_of_cons. by left.
Defined.

(** ** Registrations of the renderer and their cleanup *)

Module RendererRuns.
Import Renderer.

Lemma filter_all {A} (P : A → Prop) `{∀ x, Decision (P x)} (l : list A) :
  (∀ x, x ∈ l → P x) → filter P l = l.
Proof.
  induction l as [|x l IH]; intros Hall; [done|].
  rewrite filter_cons_True by (apply Hall, elem_of_cons; by left).
  f_equal. apply IH. intros y Hy. apply Hall, elem_of_cons. by right.
Qed.

Lemma Numbered_initial : Ipc.Numbered initial.
Proof. intros entry Hin. by apply elem_of_nil in Hin. Qed.

Lemma Numbered_on channel l r :
  Ipc.Numbered r → Ipc.Numbered (exec (ipcRenderer_on channel l) r).
Proof.
  intros Hn entry [Hin| ->%list_elem_of_singleton]%elem_of_app; cbn.
  - apply Hn in Hin. lia.
  - lia.
Qed.

Lemma Numbered_step r ev : Ipc.Numbered r → Ipc.Numbered (Ipc.rendererStep r ev).
Proof.
  intros Hn. destruct ev as [ns m h|ns m h|registration|channel e args].
  - by apply Numbered_on.
  - by apply Numbered_on.
  - intros entry [_ Hin]%list_elem_of_filter. by apply Hn.
  - cbn. unfold exec, ipcRenderer_emit.
    by destruct (forEach (listenersOn r channel) (λ l, l e args) (wire r)).
Qed.

Lemma Numbered_run evs : ∀ r, Ipc.Numbered r → Ipc.Numbered (Ipc.rendererRun evs r).
Proof.
  induction evs as [|ev evs IH]; intros r Hn; [done|].
  apply IH. by apply Numbered_step.
Qed.

(** Cleaning up the registration [on] has just made restores the
    listeners. *)
Lemma cleanup_on channel l r :
  Ipc.Numbered r →
  exec (cleanup (nextRegistration r)) (exec (ipcRenderer_on channel l) r) =
    {| wire := wire r; listeners := listeners r;
       nextRegistration := S (nextRegistration r) |}.
Proof.
  intros Hn. cbn. f_equal. rewrite filter_app, filter_cons_False, filter_nil.
  - rewrite app_nil_r. apply filter_all. intros entry Hin. apply Hn in Hin. lia.
  - cbn. by intros ?.
Qed.

Lemma cleanup_again r :
  Ipc.Numbered r →
  exec (cleanup (nextRegistration r))
    {| wire := wire r; listeners := listeners r;
       nextRegistration := S (nextRegistration r) |} =
    {| wire := wire r; listeners := listeners r;
       nextRegistration := S (nextRegistration r) |}.
Proof.
  intros Hn. cbn. f_equal. apply filter_all.
  intros entry Hin. apply Hn in Hin. lia.
Qed.

(** What the listener of [listen] does, with its completion. *)
Lemma listenListener_unfold handler e args w :
  listenListener handler e args w =
    (match handler args with Throws error => Abrupt error | _ => Normal tt end,
     {| sent := sent w; requests := requests w;
        calls := calls w ++ [(handler, args)] |}).
Proof.
  unfold listenListener, call. unfold_monad. by destruct (handler args).
Qed.

Lemma forEach_listen e args hs : ∀ w,
  (∀ h, h ∈ hs → ∀ error, h args ≠ Throws error) →
  forEach (listenListener <$> hs) (λ l, l e args) w =
    (Normal tt,
     {| sent := sent w; requests := requests w;
        calls := calls w ++ ((λ h, (h, args)) <$> hs) |}).
Proof.
  induction hs as [|h hs IH]; intros w Hquiet.
  - cbn. unfold ret. rewrite app_nil_r. by destruct w.
  - cbn [fmap list_fmap forEach]. unfold bind. rewrite listenListener_unfold.
    assert (∀ error, h args ≠ Throws error) as Hh
      by (apply Hquiet, elem_of_cons; by left).
    destruct (h args) as [v|error|v|error|] eqn:Hout; [|by destruct (Hh error)|..].
    all: rewrite IH by (intros h' Hh'; apply Hquiet, elem_of_cons; by right).
    all: cbn; by rewrite <- app_assoc.
Qed.

Lemma forEach_handle e token args hs : ∀ w,
  forEach (handleListener ipcRenderer_send <$> hs) (λ l, l e (VStr token :: args)) w =
    (Normal tt,
     {| sent := sent w ++ (hs ≫= λ h, Ipc.envelopesOf token (h args));
        requests := requests w;
        calls := calls w ++ ((λ h, (h, args)) <$> hs) |}).
Proof.
  induction hs as [|h hs IH]; intros w.
  - cbn. unfold ret. rewrite !app_nil_r. by destruct w.
  - cbn [fmap list_fmap forEach mbind list_bind]. unfold bind.
    rewrite RendererFacts.handleListener_run, IH. cbn.
    rewrite <- !app_assoc. unfold Ipc.envelopesOf. done.
Qed.

End RendererRuns.

(** X19.  The function that [listen] and [handle] return undoes the
    registration: at any point of a run of the renderer, registering a
    callback and calling the returned function leaves the listeners as if
    the callback had never been registered, so that a message is handled
    as before; calling the function a second time changes nothing. *)
Theorem cleanup_undoes_registration evs namespace method handler :
  let r := Ipc.rendererRun evs Renderer.initial in
  let unbound :=
    {| Renderer.wire := Renderer.wire r; Renderer.listeners := Renderer.listeners r;
       Renderer.nextRegistration := S (Renderer.nextRegistration r) |} in
  let undone (registered : Completion nat * Renderer.RendererState) :=
    ∃ unlisten,
      registered.1 = Normal unlisten ∧
      exec (Renderer.cleanup unlisten) registered.2 = unbound ∧
      exec (Renderer.cleanup unlisten) unbound = unbound in
  undone (Renderer.listen (Renderer.ipcRendererHandler namespace method) handler r) ∧
  undone (Renderer.handle (Renderer.ipcRendererHandler namespace method) handler r) ∧
  ∀ channel e args,
    Renderer.wire (exec (Renderer.ipcRenderer_emit channel e args) unbound) =
    Renderer.wire (exec (Renderer.ipcRenderer_emit channel e args) r).
Proof.
  intros r unbound undone.
  assert (Ipc.Numbered r) as Hn
    by apply RendererRuns.Numbered_run, RendererRuns.Numbered_initial.
  split_and!.
  - exists (Renderer.nextRegistration r). split_and!; [done| |].
    + apply (RendererRuns.cleanup_on _ _ r Hn).
    + by apply RendererRuns.cleanup_again.
  - exists (Renderer.nextRegistration r). split_and!; [done| |].
    + apply (RendererRuns.cleanup_on _ _ r Hn).
    + by apply RendererRuns.cleanup_again.
  - intros channel e args. by rewrite !RendererFacts.ipcRenderer_emit_wire.
Qed.

(** X20.  A message on a channel whose listeners are [listen] callbacks
    is delivered to them in registration order.  When none of them throws
    all are called and the delivery completes; the first one that throws
    ends it with its exception, and the callbacks registered after it are
    not called.  Nothing is written back and no listener is unbound. *)
Theorem listen_delivery_stops_at_throw hs channel e args r :
  Renderer.listenersOn r channel = Renderer.listenListener <$> hs →
  let r' := Renderer.ipcRenderer_emit channel e args r in
  ((∀ h, h ∈ hs → ∀ error, h args ≠ Throws error) →
   r'.1 = Normal tt ∧
   Renderer.calls (Renderer.wire r'.2) =
     Renderer.calls (Renderer.wire r) ++ ((λ h, (h, args)) <$> hs)) ∧
  (∀ before thrower error after,
     hs = before ++ thrower :: after →
     (∀ h, h ∈ before → ∀ error, h args ≠ Throws error) →
     thrower args = Throws error →
     r'.1 = Abrupt error ∧
     Renderer.calls (Renderer.wire r'.2) =
       Renderer.calls (Renderer.wire r) ++ ((λ h, (h, args)) <$> (before ++ [thrower]))) ∧
  Renderer.sent (Renderer.wire r'.2) = Renderer.sent (Renderer.wire r) ∧
  Renderer.listeners r'.2 = Renderer.listeners r.
Proof.
  intros Hl r'. subst r'. unfold Renderer.ipcRenderer_emit. rewrite Hl.
  assert (∀ before w,
    (∀ h, h ∈ before → ∀ error, h args ≠ Throws error) →
    ∀ thrower error after, thrower args = Throws error →
    forEach (Renderer.listenListener <$> (before ++ thrower :: after))
      (λ l, l e args) w =
      (Abrupt error,
       {| Renderer.sent := Renderer.sent w; Renderer.requests := Renderer.requests w;
          Renderer.calls :=
            Renderer.calls w ++ ((λ h, (h, args)) <$> (before ++ [thrower])) |}))
    as Hthrow.
  { intros before w Hquiet thrower error after Hthrower.
    rewrite fmap_app, forEach_app, RendererRuns.forEach_listen by done.
    cbn [fmap list_fmap forEach]. unfold bind.
    rewrite RendererRuns.listenListener_unfold, Hthrower. cbn.
    by rewrite fmap_app, <- app_assoc. }
  split_and!.
  - intros Hquiet. by rewrite RendererRuns.forEach_listen.
  - intros before thrower error after -> Hquiet Hthrower.
    by rewrite (Hthrow before _ Hquiet thrower error after Hthrower).
  - clear Hl. generalize (Renderer.wire r) as w.
    induction hs as [|h hs IH]; intros w; [done|].
    cbn [fmap list_fmap forEach]. unfold bind.
    rewrite RendererRuns.listenListener_unfold.
    destruct (h args); try done.
    all: match goal with
         | |- context [forEach _ _ ?w'] => specialize (IH w')
         end.
    all: by destruct (forEach _ _ _).
  - by destruct (forEach _ _ _).
Qed.

Lemma listen_delivery_stops_at_throw_witness :
  let first : Renderer.RendererHandler := λ _, Throws (VStr "boom") in
  let second : Renderer.RendererHandler := λ _, Returns VUndefined in
  let r :=
    Ipc.rendererRun
      [Ipc.Listen "demo" "helloFromMain" first; Ipc.Listen "demo" "helloFromMain" second]
      Renderer.initial in
  let r' :=
    Renderer.ipcRenderer_emit "send:demo.helloFromMain" {| Renderer.evSenderId := 0 |}
      [VStr "hello"] r in
  r'.1 = Abrupt (VStr "boom") ∧
  Renderer.calls (Renderer.wire r'.2) = [(first, [VStr "hello"])].
Proof.
  intros first second r r'.
  refine (proj1 (proj2
    (listen_delivery_stops_at_throw [first; second] "send:demo.helloFromMain"
       {| Renderer.evSenderId := 0 |} [VStr "hello"] r _))
    [] first (VStr "boom") [second] _ _ _).
  - reflexivity.
  - reflexivity.
  - intros h Hh. by apply elem_of_nil in Hh.
  - reflexivity.
Defined.

(** X21.  A request on a channel whose listeners are [handle] callbacks
    reaches all of them: each is called once, in registration order, with
    the arguments after the token, whatever the others do, since a failing
    callback is answered with an envelope and not with an exception.  The
    messages written are the envelopes of the callbacks that settled, all
    on the token's channel. *)
Theorem handle_callbacks_all_run hs channel e token args r :
  Renderer.listenersOn r channel =
    Renderer.handleListener Renderer.ipcRenderer_send <$> hs →
  let r' := Renderer.ipcRenderer_emit channel e (VStr token :: args) r in
  r'.1 = Normal tt ∧
  Renderer.calls (Renderer.wire r'.2) =
    Renderer.calls (Renderer.wire r) ++ ((λ h, (h, args)) <$> hs) ∧
  (∃ written,
     Renderer.sent (Renderer.wire r'.2) = Renderer.sent (Renderer.wire r) ++ written ∧
     written ≡ₚ hs ≫= λ h, Ipc.envelopesOf token (h args)) ∧
  Renderer.listeners r'.2 = Renderer.listeners r.
Proof.
  intros Hl r'. subst r'. unfold Renderer.ipcRenderer_emit.
  rewrite Hl, RendererRuns.forEach_handle. cbn. split_and!; [done..| |done].
  by eexists.
Qed.

Lemma handle_callbacks_all_run_witness :
  let first : Renderer.RendererHandler := λ _, Throws (VStr "boom") in
  let second : Renderer.RendererHandler := λ _, Returns (VNum 1) in
  let r :=
    Ipc.rendererRun [Ipc.Handle "math" "add" first; Ipc.Handle "math" "add" second]
      Renderer.initial in
  let r' :=
    Renderer.ipcRenderer_emit "invoke:math.add" {| Renderer.evSenderId := 0 |}
      [VStr "uuid-0"; VNum 5] r in
  r'.1 = Normal tt ∧
  Renderer.calls (Renderer.wire r'.2) = [(first, [VNum 5]); (second, [VNum 5])].
Proof.
  intros first second r r'.
  destruct (handle_callbacks_all_run [first; second] "invoke:math.add"
              {| Renderer.evSenderId := 0 |} "uuid-0" [VNum 5] r)
    as (Hdone & Hcalls & _).
  - reflexivity.
  - split; [exact Hdone|exact Hcalls].
Defined.

(** ** The server manager with [stop] *)

Module ServerRuns.
Import Server.

Lemma Held_initial : Ipc.Held initial.
Proof. by intros promise. Qed.

Lemma Held_step m ev : Ipc.Held m → Ipc.Held (Ipc.serverStep m ev).
Proof.
  intros Hheld. destruct ev as [|promise outcome|]; cbn.
  - unfold getOrCreate.
    destruct (instance m) as [existing|] eqn:Hinstance; [done|].
    destruct (creationPromise m) as [inProgress|] eqn:Hpromise; [done|].
    cbn. intros promise [= <-]. split; [|done]. cbn [creations].
    by rewrite lookup_app_r, Nat.sub_diag.
  - unfold settled.
    destruct (creations m !! promise) as [[| |]|] eqn:Hcell; [|done..].
    by destruct outcome.
  - by intros promise.
Qed.

Lemma Held_run evs : ∀ m, Ipc.Held m → Ipc.Held (Ipc.serverRun evs m).
Proof.
  induction evs as [|ev evs IH]; intros m Hheld; [done|].
  apply IH. by apply Held_step.
Qed.

End ServerRuns.

(** X22.  [stop()] does not cancel a creation in progress.  When it is
    called while one is in flight, the next [getOrCreate] starts a second
    creation beside the first.  The server of the stopped creation, once
    it is there, is cached and handed out by [getOrCreate] all the same;
    the server of the second creation then replaces it in the cache, and
    a later [stop()] closes the second server only: the first one is never
    closed. *)
Theorem stop_does_not_cancel_creation evs inProgress first second :
  let m := Ipc.serverRun evs Server.initial in
  Server.slot m = Server.InProgress inProgress →
  let restarted := Server.getOrCreate (Server.stop m) in
  let fresh := length (Server.creations m) in
  Server.closed (Server.stop m) = Server.closed m ∧
  restarted.1 = Server.Promise fresh ∧
  fresh ≠ inProgress ∧
  Server.creations restarted.2 !! inProgress = Some Server.InFlight ∧
  Server.creations restarted.2 !! fresh = Some Server.InFlight ∧
  let m1 := Server.settled inProgress (inl first) restarted.2 in
  Server.getOrCreate m1 = (Server.Instance first, m1) ∧
  let m2 := Server.settled fresh (inl second) m1 in
  Server.instance m2 = Some second ∧
  Server.closed (Server.stop m2) = Server.closed m ++ [second].
Proof.
  intros m Hslot.
  assert (Ipc.Held m) as Hheld
    by apply ServerRuns.Held_run, ServerRuns.Held_initial.
  unfold Server.slot in Hslot.
  destruct (Server.instance m) as [existing|] eqn:Hinstance; [done|].
  destruct (Server.creationPromise m) as [promise|] eqn:Hpromise; [|done].
  injection Hslot as ->.
  destruct (Hheld inProgress Hpromise) as [Hcell _].
  assert (inProgress < length (Server.creations m)) as Hlt
    by (by eapply lookup_lt_Some).
  assert ((Server.creations m ++ [Server.InFlight]) !! inProgress =
          Some Server.InFlight) as Hfirst by (by rewrite lookup_app_l).
  assert ((Server.creations m ++ [Server.InFlight]) !! length (Server.creations m) =
          Some Server.InFlight) as Hsecond
    by (by rewrite lookup_app_r, Nat.sub_diag).
  unfold Server.stop, Server.getOrCreate. rewrite Hinstance. cbn.
  rewrite app_nil_r. unfold Server.settled. cbn. rewrite Hfirst. cbn.
  rewrite list_lookup_insert_ne, Hsecond by lia. cbn.
  split_and!; [done|done|lia|done..].
Qed.

Lemma stop_does_not_cancel_creation_witness :
  let first := {| Server.url := "http://localhost:1024" |} in
  let second := {| Server.url := "http://localhost:1025" |} in
  let m := Ipc.serverRun [Ipc.GetOrCreate] Server.initial in
  let restarted := Server.getOrCreate (Server.stop m) in
  restarted.1 = Server.Promise 1 ∧
  let m1 := Server.settled 0 (inl first) restarted.2 in
  Server.getOrCreate m1 = (Server.Instance first, m1) ∧
  let m2 := Server.settled 1 (inl second) m1 in
  Server.instance m2 = Some second ∧
  Server.closed (Server.stop m2) = [second].
Proof.
  intros first second m restarted.
  destruct (stop_does_not_cancel_creation [Ipc.GetOrCreate] 0 first second eq_refl)
    as (_ & Hfresh & _ & _ & _ & Hcached & Hreplaced).
  split; [exact Hfresh|]. split; [exact Hcached|exact Hreplaced].
Defined.
